(** * vocab-trainer: the question-session engine of [src/App.tsx]

    A shallow embedding of the React component [App]: the word pool, the
    selection of the next word, the construction of the answer options, the
    scoring of an answer and the session life cycle, followed by the
    properties of the engine.

    The repository holds a second revision of the component, which adds a
    display flag ([showOptions], cleared by [setupQuestion]) and restyles the
    screens; the engine is the same in both.

    Conventions of the embedding.
    - A JavaScript [number] that holds a counter is a [Z].  The arithmetic
      whose result is not a whole number, the quotient and the product of the
      result screen, is IEEE 754 binary64: a rational ([Q]) rounded to 53
      significant bits, nearest first and ties to even, with gradual
      underflow.  The integer [2^1024], which no number reaches, stands for
      the infinity, and its opposite for the negative infinity.
    - A string is the list of the bytes of its UTF-8 encoding.
    - [null] is [None].
    - A handler of the component reads the state of the render it was created
      in and queues state updates; an updater function ([prev => ...]) is
      applied to the pending state.  A handler is therefore a function of the
      rendered state that yields a transformer of the pending state.
    - [Math.random()] is a fraction in the unit interval; the outcome of
      [sort] under the coin-flipping comparator [() => 0.5 - Math.random()]
      is a rearrangement selected by a code (a list of positions). *)

From Stdlib Require Import ZArith Lia Bool Ascii String Arith.
From Stdlib Require Import QArith Qround Qabs Qpower Lqa.
From Stdlib Require Import List Permutation Sorted.
Import ListNotations.

Set Implicit Arguments.
Open Scope Z_scope.

(** ** The JavaScript built-ins the component calls *)

Module JS.

(** *** Numbers

    The number nearest to a rational, in binary64: the rational is scaled by
    a power of two so that it has 53 significant bits (fewer below
    [2^-1022], where the exponent stays at [-1074]), rounded to the nearest
    integer, the even one of two that are equally near, and scaled back.
    Overflow is met where it can occur, in [toInteger]: the quotient and the
    product of the result screen stay far below it. *)

Definition nearest_even (t : Q) : Z :=
  let f := Qfloor t in
  match Qcompare (t - inject_Z f) (1 # 2) with
  | Lt => f
  | Gt => f + 1
  | Eq => if Z.even f then f else f + 1
  end.

(** The exponent [e] with [2^52 <= |x| / 2^e < 2^53]. *)
Definition normal_exponent (x : Q) : Z :=
  let e := Z.log2 (Z.abs (Qnum x)) - Z.log2 (Zpos (Qden x)) - 53 in
  if Qle_bool (2 ^ 53) (Qabs x / 2 ^ e) then e + 1 else e.

Definition exponent (x : Q) : Z := Z.max (-1074) (normal_exponent x).

Definition toNumber (x : Q) : Q :=
  if Qeq_bool x 0 then 0%Q
  else (inject_Z (nearest_even (x / 2 ^ exponent x)) * 2 ^ exponent x)%Q.

(** The number nearest to an integer, which is an integer; [2^1024] and its
    opposite are the two infinities. *)
Definition infinity : Z := 2 ^ 1024.

Definition toInteger (n : Z) : Z :=
  let r := Qfloor (toNumber (inject_Z n)) in
  if infinity <=? r then infinity
  else if r <=? - infinity then - infinity
  else r.

(** [a / b] and [a * b] on numbers; the quotient is no finite number when
    the divisor is zero. *)
Definition divide (a b : Z) : option Q :=
  if b =? 0 then None else Some (toNumber (inject_Z a / inject_Z b)).

Definition times (x y : Q) : Q := toNumber (x * y).

(** [Math.round]: the nearest integer, the greater one of two that are
    equally near. *)
Definition Math_round (x : Q) : Z := Qfloor (x + (1 # 2)).

(** *** [parseInt(string)] with no radix argument

    Leading white space is skipped, then an optional sign, then a [0x]
    prefix that selects radix 16; the number is the longest run of digits
    that follows, rounded to a number.  The standard lets an engine replace
    the decimal digits after the twentieth by zeros; all digits are read
    here.

    White space is the tabulation, the line feed, the vertical tabulation,
    the form feed, the carriage return and the space, and beyond ASCII the
    code points U+00A0, U+1680, U+2000 to U+200A, U+2028, U+2029, U+202F,
    U+205F, U+3000 and U+FEFF, of two or three bytes each. *)

Definition is_white (c : ascii) : bool :=
  let n := nat_of_ascii c in
  (Nat.leb 9 n && Nat.leb n 13) || Nat.eqb n 32.

(** The first byte of a white space of several bytes. *)
Definition is_lead (c : ascii) : bool :=
  let n := nat_of_ascii c in
  Nat.eqb n 194 || Nat.eqb n 225 || Nat.eqb n 226 || Nat.eqb n 227
  || Nat.eqb n 239.

(** U+00A0 *)
Definition is_white2 (c1 c2 : ascii) : bool :=
  Nat.eqb (nat_of_ascii c1) 194 && Nat.eqb (nat_of_ascii c2) 160.

Definition is_white3 (c1 c2 c3 : ascii) : bool :=
  let a := nat_of_ascii c1 in
  let b := nat_of_ascii c2 in
  let c := nat_of_ascii c3 in
  (* U+1680 *)
  (Nat.eqb a 225 && Nat.eqb b 154 && Nat.eqb c 128)
  (* U+2000 to U+200A, U+2028, U+2029, U+202F *)
  || (Nat.eqb a 226 && Nat.eqb b 128
      && ((Nat.leb 128 c && Nat.leb c 138) || Nat.eqb c 168 || Nat.eqb c 169
          || Nat.eqb c 175))
  (* U+205F *)
  || (Nat.eqb a 226 && Nat.eqb b 129 && Nat.eqb c 159)
  (* U+3000 *)
  || (Nat.eqb a 227 && Nat.eqb b 128 && Nat.eqb c 128)
  (* U+FEFF *)
  || (Nat.eqb a 239 && Nat.eqb b 187 && Nat.eqb c 191).

Fixpoint trim_start (s : string) : string :=
  match s with
  | EmptyString => s
  | String c1 s1 =>
      if is_white c1 then trim_start s1
      else if negb (is_lead c1) then s
      else
        match s1 with
        | EmptyString => s
        | String c2 s2 =>
            if is_white2 c1 c2 then trim_start s2
            else
              match s2 with
              | EmptyString => s
              | String c3 s3 =>
                  if is_white3 c1 c2 c3 then trim_start s3 else s
              end
        end
  end.

Definition digit_value (c : ascii) : option Z :=
  let n := Z.of_nat (nat_of_ascii c) in
  if (48 <=? n) && (n <=? 57) then Some (n - 48)
  else if (97 <=? n) && (n <=? 122) then Some (n - 87)
  else if (65 <=? n) && (n <=? 90) then Some (n - 55)
  else None.

(** The longest prefix of digits of the radix; [None] when it is empty. *)
Fixpoint digits (radix : Z) (s : string) (acc : option Z) : option Z :=
  match s with
  | EmptyString => acc
  | String c s' =>
      match digit_value c with
      | Some d =>
          if d <? radix
          then digits radix s'
                 (Some (match acc with Some a => a * radix + d | None => d end))
          else acc
      | None => acc
      end
  end.

(** [None] stands for [NaN]. *)
Definition parseInt (s : string) : option Z :=
  let s1 := trim_start s in
  let '(sign, s2) :=
    match s1 with
    | String "-"%char r => (-1, r)
    | String "+"%char r => (1, r)
    | _ => (1, s1)
    end in
  let '(radix, s3) :=
    match s2 with
    | String "0"%char (String "x"%char r) => (16, r)
    | String "0"%char (String "X"%char r) => (16, r)
    | _ => (10, s2)
    end in
  match digits radix s3 None with
  | Some n => Some (toInteger (sign * n))
  | None => None
  end.

(** *** [Array.prototype.sort(compareFn)] with a consistent comparator

    The sort is stable: [compareFn a b > 0] puts [a] after [b], and elements
    that compare as equal keep their order. *)

Section Sort.
Variable A : Type.
Variable compareFn : A -> A -> Z.

Fixpoint insert (x : A) (l : list A) : list A :=
  match l with
  | [] => [x]
  | y :: t => if 0 <? compareFn x y then y :: insert x t else x :: l
  end.

Fixpoint Array_sort (l : list A) : list A :=
  match l with
  | [] => []
  | x :: t => insert x (Array_sort t)
  end.
End Sort.

(** *** [Array.prototype.sort(() => 0.5 - Math.random())]

    The comparator ignores its arguments, so the engine returns some
    rearrangement of the array.  The rearrangement is named by a code: each
    position of the code selects the next element among those left. *)

Section Shuffle.
Variable A : Type.

Fixpoint remove_nth (i : nat) (l : list A) : list A :=
  match l with
  | [] => []
  | x :: t => match i with O => t | S j => x :: remove_nth j t end
  end.

Fixpoint Array_sort_random (code : list nat) (l : list A) : list A :=
  match code with
  | [] => l
  | k :: code' =>
      match l with
      | [] => []
      | x :: _ =>
          let i := Nat.modulo k (length l) in
          nth i l x :: Array_sort_random code' (remove_nth i l)
      end
  end.

(** [array.slice(0, n)] *)
Definition Array_slice0 (n : nat) (l : list A) : list A := firstn n l.

(** [array[i]], [undefined] out of range *)
Definition Array_get (l : list A) (i : nat) : option A := nth_error l i.
End Shuffle.

(** *** [Math.random()], a number in the unit interval *)

Record Random : Type := mkRandom {
  num : nat;
  den : nat;
  in_unit : Nat.ltb num den = true
}.

(** [Math.floor(Math.random() * n)] *)
Definition Math_floor_times (r : Random) (n : nat) : nat :=
  Nat.div (num r * n) (den r).

End JS.

(** ** The data of the component *)

Record Word : Type := mkWord {
  id : string;
  english : string;
  japanese : string;
  wrongCount : Z;
  correctTotal : Z
}.

Inductive Mode : Type := enToJa | jaToEn.
Inductive SessionType : Type := normal | training.
Inductive Feedback : Type := correct | wrong.

Record Range : Type := mkRange { start : Z; end_ : Z }.

(** The state variables of [App] that the engine reads or writes, and the
    entry [vocab-data] of the local storage. *)
Record State : Type := mkState {
  allWords : list Word;
  currentWord : option Word;
  options : list string;
  feedback : option Feedback;
  sessionType : SessionType;
  mode : Mode;
  range : Range;
  sessionLimit : Z;
  solvedCount : Z;
  correctSession : Z;
  isFinished : bool;
  usedWordIds : list string;
  vocab_data : option (list Word)
}.

(** The random draws of one call of [setupQuestion]. *)
Record Draws : Type := mkDraws {
  shuffleWrong : list nat;
  shuffleOptions : list nat
}.

Definition Mode_eqb (a b : Mode) : bool :=
  match a, b with
  | enToJa, enToJa | jaToEn, jaToEn => true
  | _, _ => false
  end.

(** ** State updates *)

Definition Update : Type := State -> State.
Definition Handler : Type := State -> Update.

Definition skip : Update := fun p => p.
Definition seq (u v : Update) : Update := fun p => v (u p).
Notation "u ;; v" := (seq u v) (at level 61, left associativity).

(** One event: the handler runs on the rendered state, and its queued
    updates are applied to that state. *)
Definition dispatch (h : Handler) (s : State) : State := h s s.

Definition setAllWords (v : list Word) : Update := fun p =>
  mkState v (currentWord p) (options p) (feedback p) (sessionType p) (mode p)
    (range p) (sessionLimit p) (solvedCount p) (correctSession p)
    (isFinished p) (usedWordIds p) (vocab_data p).

Definition setCurrentWord (v : option Word) : Update := fun p =>
  mkState (allWords p) v (options p) (feedback p) (sessionType p) (mode p)
    (range p) (sessionLimit p) (solvedCount p) (correctSession p)
    (isFinished p) (usedWordIds p) (vocab_data p).

Definition setOptions (v : list string) : Update := fun p =>
  mkState (allWords p) (currentWord p) v (feedback p) (sessionType p) (mode p)
    (range p) (sessionLimit p) (solvedCount p) (correctSession p)
    (isFinished p) (usedWordIds p) (vocab_data p).

Definition setFeedback (v : option Feedback) : Update := fun p =>
  mkState (allWords p) (currentWord p) (options p) v (sessionType p) (mode p)
    (range p) (sessionLimit p) (solvedCount p) (correctSession p)
    (isFinished p) (usedWordIds p) (vocab_data p).

Definition setSessionType (v : SessionType) : Update := fun p =>
  mkState (allWords p) (currentWord p) (options p) (feedback p) v (mode p)
    (range p) (sessionLimit p) (solvedCount p) (correctSession p)
    (isFinished p) (usedWordIds p) (vocab_data p).

Definition setMode (v : Mode) : Update := fun p =>
  mkState (allWords p) (currentWord p) (options p) (feedback p)
    (sessionType p) v (range p) (sessionLimit p) (solvedCount p)
    (correctSession p) (isFinished p) (usedWordIds p) (vocab_data p).

Definition setRange (v : Range) : Update := fun p =>
  mkState (allWords p) (currentWord p) (options p) (feedback p)
    (sessionType p) (mode p) v (sessionLimit p) (solvedCount p)
    (correctSession p) (isFinished p) (usedWordIds p) (vocab_data p).

Definition setSessionLimit (v : Z) : Update := fun p =>
  mkState (allWords p) (currentWord p) (options p) (feedback p)
    (sessionType p) (mode p) (range p) v (solvedCount p)
    (correctSession p) (isFinished p) (usedWordIds p) (vocab_data p).

Definition setSolvedCount (v : Z) : Update := fun p =>
  mkState (allWords p) (currentWord p) (options p) (feedback p)
    (sessionType p) (mode p) (range p) (sessionLimit p) v
    (correctSession p) (isFinished p) (usedWordIds p) (vocab_data p).

(** [setCorrectSession(prev => f(prev))] *)
Definition updCorrectSession (f : Z -> Z) : Update := fun p =>
  mkState (allWords p) (currentWord p) (options p) (feedback p)
    (sessionType p) (mode p) (range p) (sessionLimit p) (solvedCount p)
    (f (correctSession p)) (isFinished p) (usedWordIds p) (vocab_data p).

Definition setCorrectSession (v : Z) : Update := updCorrectSession (fun _ => v).

Definition setIsFinished (v : bool) : Update := fun p =>
  mkState (allWords p) (currentWord p) (options p) (feedback p)
    (sessionType p) (mode p) (range p) (sessionLimit p) (solvedCount p)
    (correctSession p) v (usedWordIds p) (vocab_data p).

(** [setUsedWordIds(prev => f(prev))] *)
Definition updUsedWordIds (f : list string -> list string) : Update := fun p =>
  mkState (allWords p) (currentWord p) (options p) (feedback p)
    (sessionType p) (mode p) (range p) (sessionLimit p) (solvedCount p)
    (correctSession p) (isFinished p) (f (usedWordIds p)) (vocab_data p).

Definition setUsedWordIds (v : list string) : Update :=
  updUsedWordIds (fun _ => v).

(** [localStorage.setItem('vocab-data', JSON.stringify(v))] *)
Definition storeVocabData (v : list Word) : Update := fun p =>
  mkState (allWords p) (currentWord p) (options p) (feedback p)
    (sessionType p) (mode p) (range p) (sessionLimit p) (solvedCount p)
    (correctSession p) (isFinished p) (usedWordIds p) (Some v).

(** ** The component *)

(** [filteredWords]: the words whose parsed identifier lies in the range. *)
Definition filteredWords (s : State) : list Word :=
  filter (fun w =>
            match JS.parseInt (id w) with
            | Some idNum =>
                (start (range s) <=? idNum) && (idNum <=? end_ (range s))
            | None => false
            end)
         (allWords s).

(** [excludeIds.includes(x)] *)
Definition includes (excludeIds : list string) (x : string) : bool :=
  existsb (String.eqb x) excludeIds.

Definition availableWords (filtered : list Word) (excludeIds : list string)
  : list Word :=
  filter (fun w => negb (includes excludeIds (id w))) filtered.

(** The comparator of the training sort, [(a, b) => b.wrongCount - a.wrongCount]. *)
Definition byWrongCountDesc (a b : Word) : Z := wrongCount b - wrongCount a.

Definition pickNextWord (filtered : list Word) (excludeIds : list string)
    (type : SessionType) (r : JS.Random) : option Word :=
  let available := availableWords filtered excludeIds in
  match available with
  | [] => None
  | _ :: _ =>
      match type with
      | training =>
          let sorted := JS.Array_sort byWrongCountDesc available in
          JS.Array_get sorted 0
      | normal =>
          JS.Array_get available (JS.Math_floor_times r (List.length available))
      end
  end.

(** [mode === 'enToJa' ? w.japanese : w.english] *)
Definition answerTerm (m : Mode) (w : Word) : string :=
  if Mode_eqb m enToJa then japanese w else english w.

(** The local constants of [setupQuestion]. *)
Definition wrongAnswers (m : Mode) (pool : list Word) (word : Word)
  : list string :=
  map (answerTerm m)
      (filter (fun w => negb (String.eqb (answerTerm m w) (answerTerm m word)))
              pool).

Definition shuffledWrong (m : Mode) (pool : list Word) (word : Word)
    (d : Draws) : list string :=
  JS.Array_slice0 3 (JS.Array_sort_random (shuffleWrong d)
                                          (wrongAnswers m pool word)).

Definition questionOptions (m : Mode) (pool : list Word) (word : Word)
    (d : Draws) : list string :=
  JS.Array_sort_random (shuffleOptions d)
    (shuffledWrong m pool word d ++ [answerTerm m word]).

Definition setupQuestion (word : Word) (d : Draws) : Handler := fun r =>
  setCurrentWord (Some word) ;;
  updUsedWordIds (fun prev => prev ++ [id word]) ;;
  setOptions (questionOptions (mode r) (allWords r) word d) ;;
  setFeedback None.

Definition startSession (type : SessionType) (rnd : JS.Random) (d : Draws)
  : Handler := fun r =>
  setSessionType type ;;
  setSolvedCount 0 ;;
  setCorrectSession 0 ;;
  setIsFinished false ;;
  setUsedWordIds [] ;;
  match pickNextWord (filteredWords r) [] type rnd with
  | Some firstWord => setupQuestion firstWord d r
  | None => skip
  end.

(** The object written for the answered word:
    [{ ...w, wrongCount: ..., correctTotal: ... }]. *)
Definition scored (isCorrect : bool) (w : Word) : Word :=
  mkWord (id w) (english w) (japanese w)
    (if isCorrect then Z.max 0 (wrongCount w - 1) else wrongCount w + 1)
    (if isCorrect then 1 else 0).

Definition updatedWords (pool : list Word) (current : Word) (isCorrect : bool)
  : list Word :=
  map (fun w => if String.eqb (id w) (id current) then scored isCorrect w else w)
      pool.

Definition handleAnswer (answer : string) : Handler := fun r =>
  match currentWord r, feedback r, isFinished r with
  | Some current, None, false =>
      let correctAnswer := answerTerm (mode r) current in
      let isCorrect := String.eqb answer correctAnswer in
      setFeedback (Some (if isCorrect then correct else wrong)) ;;
      (if isCorrect then updCorrectSession (fun prev => prev + 1) else skip) ;;
      setAllWords (updatedWords (allWords r) current isCorrect) ;;
      storeVocabData (updatedWords (allWords r) current isCorrect)
  | _, _, _ => skip
  end.

(** [setIsFinished(true); setCurrentWord(null); setFeedback(null)] *)
Definition finish : Update :=
  setIsFinished true ;; setCurrentWord None ;; setFeedback None.

Definition proceedNext (rnd : JS.Random) (d : Draws) : Handler := fun r =>
  match feedback r, isFinished r, currentWord r with
  | Some _, false, Some _ =>
      let nextCount := solvedCount r + 1 in
      setSolvedCount nextCount ;;
      if sessionLimit r <=? nextCount then finish
      else
        match pickNextWord (filteredWords r) (usedWordIds r) (sessionType r) rnd with
        | Some nextWord => setupQuestion nextWord d r
        | None => finish
        end
  | _, _, _ => skip
  end.

(** The button of the result screen. *)
Definition backToLobby : Handler := fun _ =>
  setIsFinished false ;; setSessionType normal.

(** The inputs of the settings dialog: [parseInt(e.target.value) || 1]. *)
Definition orOne (v : option Z) : Z :=
  match v with
  | Some n => if n =? 0 then 1 else n
  | None => 1
  end.

Definition changeLimit (value : string) : Handler := fun _ =>
  setSessionLimit (orOne (JS.parseInt value)).

Definition changeStart (value : string) : Handler := fun r =>
  setRange (mkRange (orOne (JS.parseInt value)) (end_ (range r))).

Definition changeEnd (value : string) : Handler := fun r =>
  setRange (mkRange (start (range r)) (orOne (JS.parseInt value))).

Definition changeMode (value : Mode) : Handler := fun _ => setMode value.

(** The figure of the result screen,
    [Math.round((correctSession / (solvedCount || 1)) * 100)];
    [None] when the quotient is not a finite number. *)
Definition orOneZ (n : Z) : Z := if n =? 0 then 1 else n.

Definition accuracyPercent (s : State) : option Z :=
  match JS.divide (correctSession s) (orOneZ (solvedCount s)) with
  | Some q => Some (JS.Math_round (JS.times q 100))
  | None => None
  end.

(** The same expression for [c] correct answers out of [m], [m] not zero. *)
Definition figure (c m : Z) : Z :=
  JS.Math_round (JS.times (JS.toNumber (inject_Z c / inject_Z m)) 100).

(** What the component renders: the result screen when [isFinished], the
    lobby when there is no current word, the question otherwise. *)
Inductive Screen : Type :=
| Result (percent : option Z) (solved correctAnswers : Z)
| Lobby
| Question (word : Word) (choices : list string) (fb : option Feedback).

Definition render (s : State) : Screen :=
  if isFinished s then Result (accuracyPercent s) (solvedCount s) (correctSession s)
  else
    match currentWord s with
    | None => Lobby
    | Some w => Question w (options s) (feedback s)
    end.

(** ** Sessions as runs of events *)

Inductive Event : Type :=
| Start (type : SessionType) (rnd : JS.Random) (d : Draws)
| Answer (answer : string)
| Next (rnd : JS.Random) (d : Draws)
| BackToLobby
| ChangeMode (value : Mode)
| ChangeLimit (value : string)
| ChangeStart (value : string)
| ChangeEnd (value : string).

Definition handler (e : Event) : Handler :=
  match e with
  | Start type rnd d => startSession type rnd d
  | Answer answer => handleAnswer answer
  | Next rnd d => proceedNext rnd d
  | BackToLobby => backToLobby
  | ChangeMode v => changeMode v
  | ChangeLimit v => changeLimit v
  | ChangeStart v => changeStart v
  | ChangeEnd v => changeEnd v
  end.

Definition step (s : State) (e : Event) : State := dispatch (handler e) s.

Definition run (events : list Event) (s : State) : State :=
  fold_left step events s.

(** The state after the word list has been loaded, before any event. *)
Definition initialState (pool : list Word) (m : Mode) (rg : Range) (limit : Z)
  : State :=
  mkState pool None [] None normal m rg limit 0 0 false [] None.

(** [toTrainCount] and [hasWrongWords]: the number of words with a positive
    [wrongCount], and whether there is one. *)
Definition toTrainCount (s : State) : Z :=
  fold_left (fun sum w => sum + (if 0 <? wrongCount w then 1 else 0))
            (allWords s) 0.

Definition hasWrongWords (s : State) : bool := 0 <? toTrainCount s.

(** The two start buttons exist on the lobby screen only, and the training
    button calls [startSession] only when [hasWrongWords]. *)
Definition startEnabled (s : State) (type : SessionType) : bool :=
  match render s with
  | Lobby => match type with normal => true | training => hasWrongWords s end
  | _ => false
  end.

(** An event as the user interface admits it: a press of a start button that
    is not on the screen does not happen. *)
Definition click (s : State) (e : Event) : State :=
  match e with
  | Start type _ _ => if startEnabled s type then step s e else s
  | _ => step s e
  end.

Definition session (events : list Event) (s : State) : State :=
  fold_left click events s.

Definition isStart (e : Event) : bool :=
  match e with Start _ _ _ => true | _ => false end.

(** The first element with the greatest [wrongCount]. *)
Fixpoint firstMax (l : list Word) : option Word :=
  match l with
  | [] => None
  | x :: t =>
      match firstMax t with
      | Some y => if wrongCount x <? wrongCount y then Some y else Some x
      | None => Some x
      end
  end.

(** What any stable sort in descending order of [wrongCount] returns on [l]:
    a rearrangement of [l], in descending order, in which the words of equal
    [wrongCount] keep the order they have in [l]. *)
Definition stableDescending (l l' : list Word) : Prop :=
  Permutation l l' /\
  StronglySorted (fun a b => wrongCount b <= wrongCount a) l' /\
  forall k, filter (fun w => wrongCount w =? k) l' =
            filter (fun w => wrongCount w =? k) l.

(** How an event within a session moves the record of the words asked: the
    record stays as it is, or a word that is not yet recorded is asked and
    recorded. *)
Inductive Continues (s s' : State) : Prop :=
| Stays :
    usedWordIds s' = usedWordIds s ->
    currentWord s' = currentWord s \/ currentWord s' = None ->
    Continues s s'
| Asks (w : Word) :
    ~ In (id w) (usedWordIds s) ->
    usedWordIds s' = usedWordIds s ++ [id w] ->
    currentWord s' = Some w ->
    Continues s s'.

(** Any event continues the session or starts one from the lobby, with no
    question or with a first one. *)
Inductive Progress (s s' : State) : Prop :=
| Goes : Continues s s' -> Progress s s'
| StartsEmpty :
    currentWord s = None ->
    usedWordIds s' = [] ->
    currentWord s' = None ->
    Progress s s'
| StartsWith (w : Word) :
    usedWordIds s' = [id w] ->
    currentWord s' = Some w ->
    Progress s s'.

(** Every word on the screen is recorded, and no word is recorded twice. *)
Definition Recorded (s : State) : Prop :=
  NoDup (usedWordIds s) /\
  forall w, currentWord s = Some w -> In (id w) (usedWordIds s).

(** ** Sample data *)

Definition half : JS.Random := JS.mkRandom 1 2 eq_refl.
Definition noShuffle : Draws := mkDraws [] [].

Definition sampleWords : list Word :=
  [ mkWord "1" "cat" "neko" 0 0;
    mkWord "2" "dog" "inu" 2 0;
    mkWord "3" "hound" "inu" 2 1;
    mkWord "4" "bird" "tori" 1 0;
    mkWord "5" "fish" "sakana" 0 0 ].

Definition sampleState : State :=
  initialState sampleWords enToJa (mkRange 1 100) 10.

Definition cat : Word := mkWord "1" "cat" "neko" 0 0.

(** The sample pool with a range that admits the first word only. *)
Definition narrowState : State :=
  initialState sampleWords enToJa (mkRange 1 1) 10.

(** The first question of a training session on the sample pool. *)
Definition answeringState : State :=
  run [Start training half noShuffle] sampleState.

(** The same question, answered correctly. *)
Definition answeredState : State := step answeringState (Answer "inu").

(** A finished session of ten questions, seven of them answered correctly. *)
Definition sevenOfTen : State :=
  mkState sampleWords None [] None normal enToJa (mkRange 1 100) 10 10 7 true
          ["1"; "2"; "3"; "4"; "5"]%string None.

(** A finished session of forty questions, twenty-three answered correctly. *)
Definition twentyThreeOfForty : State :=
  mkState sampleWords None [] None normal enToJa (mkRange 1 100) 40 40 23 true
          ["1"; "2"; "3"; "4"; "5"]%string None.

(** A normal session of three questions on the sample pool. *)
Definition threeQuestions : list Event :=
  [ Start normal half noShuffle;
    Answer "inu"; Next half noShuffle;
    Answer "tori"; Next half noShuffle;
    Answer "neko"; Next half noShuffle ].

Definition shortSession : State :=
  session threeQuestions (initialState sampleWords enToJa (mkRange 1 100) 3).

Definition nonneg (w : Word) : Prop := 0 <= wrongCount w.

(** ** The rest of the component: loading, persistence, reset, display *)

(** [x || 0] on a number *)
Definition orZero (n : Z) : Z := if n =? 0 then 0 else n.

(** [totalCorrectAchieved]: the sum of [correctTotal || 0] over the pool. *)
Definition totalCorrectAchieved (s : State) : Z :=
  fold_left (fun sum w => sum + orZero (correctTotal w)) (allWords s) 0.

(** A parsed row of the word list.  A term cell that is absent is the empty
    string here: both are falsy, and a row with a falsy term is dropped.  The
    identifier cell is taken to be present. *)
Record Row : Type := mkRow {
  ID : string;
  English : string;
  Japanese : string
}.

(** Truth of a string: it is not empty. *)
Definition truthy (x : string) : bool := negb (String.eqb x EmptyString).

(** *** Loading with stored data that the component wrote

    The entry [vocab-data] is absent ([None]) or holds a list of word
    records with whole counters, which is what [handleAnswer] stores.
    [loadWords] below takes any content of the entry. *)

(** [new Map(savedList.map(w => [w.id, w])).get(key)]: of several entries
    with one key the last one stays. *)
Definition Map_get (savedList : list Word) (key : string) : option Word :=
  find (fun w => String.eqb (id w) key) (rev savedList).

(** [savedData ? JSON.parse(savedData) : []], for an entry that is absent
    or parses to a list of word records. *)
Definition savedListOf (savedData : option (list Word)) : list Word :=
  match savedData with
  | Some l => l
  | None => []
  end.

(** [formatted], the pool built from the parsed rows and such stored data.
    The counters of a stored record are numbers then, and [x || 0] is [x]
    or, for zero, 0. *)
Definition formatted (parsed : list Row) (savedData : option (list Word))
  : list Word :=
  map (fun w =>
         let saved := Map_get (savedListOf savedData) (ID w) in
         mkWord (ID w) (English w) (Japanese w)
           (match saved with Some sv => wrongCount sv | None => 0 end)
           (match saved with Some sv => orZero (correctTotal sv) | None => 0 end))
      (filter (fun w => truthy (English w) && truthy (Japanese w)) parsed).

(** The component once the word list has arrived: every state variable has
    its initial value except the configuration, read from the local storage,
    and [allWords]. *)
Definition bootState (parsed : list Row) (savedData : option (list Word))
    (m : Mode) (rg : Range) (limit : Z) : State :=
  mkState (formatted parsed savedData) None [] None normal m rg limit 0 0 false
          [] savedData.

(** *** Loading with any stored data

    The value that [JSON.parse] returns.  The parser is not part of the
    embedding: an entry of the local storage is given by what [getItem] and
    [JSON.parse] make of it.  A number of the text is a rational here, an
    infinity, which the parser returns for a number that is too large, has
    the magnitude [2^1024]. *)
#[warnings="-register-all"]
Inductive JSON : Type :=
| JNull
| JBool (b : bool)
| JNumber (x : Q)
| JString (s : string)
| JArray (items : list JSON)
| JObject (fields : list (string * JSON)).

(** [v.key] for a value other than [null]; [None] is [undefined].  The
    fields of an object are in the order of the text, and a later field
    replaces an earlier one of the same name.  The keys the component reads
    ([id], [wrongCount], [correctTotal], [start], [end]) are properties of
    objects only. *)
Definition JSON_get (key : string) (v : JSON) : option JSON :=
  match v with
  | JObject fields =>
      match find (fun f => String.eqb (fst f) key) (rev fields) with
      | Some f => Some (snd f)
      | None => None
      end
  | _ => None
  end.

(** Truth of a value. *)
Definition JSON_truthy (v : JSON) : bool :=
  match v with
  | JNull => false
  | JBool b => b
  | JNumber x => negb (Qeq_bool x 0)
  | JString t => truthy t
  | JArray _ => true
  | JObject _ => true
  end.

Definition isNull (v : JSON) : bool :=
  match v with JNull => true | _ => false end.

(** An entry that holds JSON text, [vocab-data] or [conf-range]: [getItem]
    returns [null] or the empty text, or a text on which [JSON.parse]
    throws, or a text of which [JSON.parse] returns the value. *)
Inductive StoredData : Type :=
| NoData
| BadText
| Data (v : JSON).

(** [savedList.map(w => [w.id, w])]; [None] when the call throws, which it
    does when [savedList] is no array ([map] is no function then) or has
    [null] among its elements ([null] has no property). *)
Definition savedPairs (savedList : JSON) : option (list (option JSON * JSON)) :=
  match savedList with
  | JArray items =>
      if existsb isNull items then None
      else Some (map (fun w => (JSON_get "id" w, w)) items)
  | _ => None
  end.

(** [savedMap.get(key)] for a key that is a string: the keys of the map
    that equal it are the strings of the same text, and of several entries
    with one key the last one stays. *)
Definition savedMap_get (pairs : list (option JSON * JSON)) (key : string)
  : option JSON :=
  match find (fun e => match fst e with
                       | Some (JString k) => String.eqb k key
                       | _ => false
                       end) (rev pairs) with
  | Some e => Some (snd e)
  | None => None
  end.

(** A word as the load builds it: the counters are whatever the stored
    entry holds. *)
Record RawWord : Type := mkRawWord {
  rawId : string;
  rawEnglish : string;
  rawJapanese : string;
  rawWrongCount : option JSON;
  rawCorrectTotal : JSON
}.

(** [saved ? saved.wrongCount : 0] *)
Definition savedWrongCount (saved : option JSON) : option JSON :=
  match saved with
  | Some sv => if JSON_truthy sv then JSON_get "wrongCount" sv
               else Some (JNumber 0)
  | None => Some (JNumber 0)
  end.

(** [saved ? saved.correctTotal || 0 : 0].  The second revision reads
    [saved.correctTotal] without [|| 0], which is the same for a counter that
    is a number. *)
Definition savedCorrectTotal (saved : option JSON) : JSON :=
  match saved with
  | Some sv =>
      if JSON_truthy sv
      then match JSON_get "correctTotal" sv with
           | Some v => if JSON_truthy v then v else JNumber 0
           | None => JNumber 0
           end
      else JNumber 0
  | None => JNumber 0
  end.

Definition formattedRaw (parsed : list Row) (pairs : list (option JSON * JSON))
  : list RawWord :=
  map (fun w =>
         let saved := savedMap_get pairs (ID w) in
         mkRawWord (ID w) (English w) (Japanese w)
           (savedWrongCount saved) (savedCorrectTotal saved))
      (filter (fun w => truthy (English w) && truthy (Japanese w)) parsed).

(** The callback of the load: the pool handed to [setAllWords], or [None]
    when the callback throws before it gets there and the pool stays as it
    was, empty. *)
Definition loadWords (parsed : list Row) (stored : StoredData)
  : option (list RawWord) :=
  match stored with
  | NoData => Some (formattedRaw parsed [])
  | BadText => None
  | Data v =>
      match savedPairs v with
      | Some pairs => Some (formattedRaw parsed pairs)
      | None => None
      end
  end.

(** What [JSON.stringify] writes for a number and [JSON.parse] reads back:
    the number itself, or [null] for an infinity. *)
Definition JSON_number (n : Z) : JSON :=
  if Z.abs n <? JS.infinity then JNumber (inject_Z n) else JNull.

(** A number that is whole. *)
Definition JSON_integer (v : option JSON) : option Z :=
  match v with
  | Some (JNumber x) =>
      if Qeq_bool x (inject_Z (Qfloor x)) then Some (Qfloor x) else None
  | _ => None
  end.

(** [JSON.stringify(updatedWords)], read back. *)
Definition encodeWord (w : Word) : JSON :=
  JObject [ ("id"%string, JString (id w));
            ("english"%string, JString (english w));
            ("japanese"%string, JString (japanese w));
            ("wrongCount"%string, JSON_number (wrongCount w));
            ("correctTotal"%string, JSON_number (correctTotal w)) ].

Definition encode (pool : list Word) : JSON := JArray (map encodeWord pool).

(** A word with whole counters among the words the load can build. *)
Definition rawOf (w : Word) : RawWord :=
  mkRawWord (id w) (english w) (japanese w)
    (Some (JNumber (inject_Z (wrongCount w))))
    (JNumber (inject_Z (correctTotal w))).

Definition finiteCounters (w : Word) : Prop :=
  Z.abs (wrongCount w) < JS.infinity /\ Z.abs (correctTotal w) < JS.infinity.

(** *** The configuration in the local storage *)

(** [Number.prototype.toString()] on a number that is an integer.

    The digits printed are those of the integer with the fewest significant
    digits that [parseInt] would read as the number; of several such
    integers the nearest one, and of two that are equally near the one
    whose last significant digit is even.  Below [10^21] the digits are
    printed in full, from there on with an exponent. *)
Definition digit_char (d : Z) : ascii := ascii_of_nat (48 + Z.to_nat d).

Fixpoint decimal (fuel : nat) (n : Z) (rest : string) : string :=
  match fuel with
  | O => rest
  | S f =>
      let rest' := String (digit_char (n mod 10)) rest in
      if n <? 10 then rest' else decimal f (n / 10) rest'
  end.

(** The decimal digits of an integer that is not negative; a number has 309
    of them at most. *)
Definition digits_of (v : Z) : string := decimal 400 v EmptyString.

(** Whether the number nearest to the integer [v] is [x]. *)
Definition reads_as (x v : Z) : bool := JS.toInteger v =? x.

(** Of the two multiples of [p] next to [x], one that reads as [x]. *)
Definition nearest_multiple (x p : Z) : option Z :=
  let lo := x / p * p in
  let hi := lo + p in
  match reads_as x lo, reads_as x hi with
  | true, true =>
      Some (if x - lo <? hi - x then lo
            else if hi - x <? x - lo then hi
            else if Z.even (x / p) then lo else hi)
  | true, false => Some lo
  | false, true => Some hi
  | false, false => None
  end.

(** The integer of the fewest significant digits that reads as [x]: the
    powers of ten up to [x] are tried from [10^j] down. *)
Fixpoint shortest (j : nat) (x : Z) : Z :=
  let p := 10 ^ Z.of_nat j in
  match (if p <=? x then nearest_multiple x p else None) with
  | Some v => v
  | None => match j with O => x | S j' => shortest j' x end
  end.

Fixpoint strip_zeros (fuel : nat) (v : Z) : Z :=
  match fuel with
  | O => v
  | S f => if (0 <? v) && (v mod 10 =? 0) then strip_zeros f (v / 10) else v
  end.

Definition positive_toString (x : Z) : string :=
  let v := shortest 308 x in
  if v <? 10 ^ 21 then digits_of v
  else
    let e := Z.of_nat (String.length (digits_of v)) - 1 in
    match digits_of (strip_zeros 400 v) with
    | String d EmptyString => String d ("e+" ++ digits_of e)
    | String d rest => String d ("." ++ rest ++ "e+" ++ digits_of e)
    | EmptyString => EmptyString
    end.

Definition Number_toString (n : Z) : string :=
  if JS.infinity <=? n then "Infinity"
  else if n <=? - JS.infinity then "-Infinity"
  else if n <? 0 then String "-" (positive_toString (- n))
  else positive_toString n.

(** [parseInt(localStorage.getItem('conf-limit') || '10')] *)
Definition initialLimit (stored : option string) : option Z :=
  JS.parseInt (match stored with
               | Some v => if String.eqb v EmptyString then "10"%string else v
               | None => "10"%string
               end).

(** The text of a mode, and
    [localStorage.getItem('conf-mode') || 'enToJa']; [None] for a text that
    names no mode. *)
Definition Mode_text (m : Mode) : string :=
  match m with enToJa => "enToJa" | jaToEn => "jaToEn" end.

Definition initialMode (stored : option string) : option Mode :=
  let v := match stored with
           | Some v => if String.eqb v EmptyString then "enToJa"%string else v
           | None => "enToJa"%string
           end in
  if String.eqb v "enToJa" then Some enToJa
  else if String.eqb v "jaToEn" then Some jaToEn
  else None.

(** [JSON.stringify(range)], read back. *)
Definition encodeRange (rg : Range) : JSON :=
  JObject [ ("start"%string, JSON_number (start rg));
            ("end"%string, JSON_number (end_ rg)) ].

(** [JSON.parse(localStorage.getItem('conf-range') || '{"start":1,"end":100}')];
    [None] when [JSON.parse] throws, and the component with it, and when the
    value does not hold two whole numbers. *)
Definition initialRange (stored : StoredData) : option Range :=
  let range_of v :=
    match JSON_integer (JSON_get "start" v), JSON_integer (JSON_get "end" v) with
    | Some a, Some b => Some (mkRange a b)
    | _, _ => None
    end in
  match stored with
  | NoData => range_of (JObject [ ("start"%string, JNumber 1);
                                  ("end"%string, JNumber 100) ])
  | BadText => None
  | Data v => range_of v
  end.

(** The component once the word list has arrived, with the configuration
    that the three initialisers read from the local storage; [None] when
    they read something that is no [State] of the embedding. *)
Definition boot (parsed : list Row) (savedData : option (list Word))
    (confMode : option string) (confRange : StoredData)
    (confLimit : option string) : option State :=
  match initialMode confMode, initialRange confRange, initialLimit confLimit with
  | Some m, Some rg, Some limit => Some (bootState parsed savedData m rg limit)
  | _, _, _ => None
  end.

(** Loading the page again: the configuration is read from the entries that
    the effect of the component wrote after its last change,
    [mode], [JSON.stringify(range)] and [sessionLimit.toString()]. *)
Definition reloadWith (savedData : option (list Word)) (parsed : list Row)
    (s : State) : option State :=
  boot parsed savedData (Some (Mode_text (mode s)))
       (Data (encodeRange (range s)))
       (Some (Number_toString (sessionLimit s))).

Definition reload (parsed : list Row) (s : State) : option State :=
  reloadWith (vocab_data s) parsed s.

(** [handleReset]: when the user confirms, the entry [vocab-data] is removed
    and the page is loaded again. *)
Definition handleReset (confirmed : bool) (parsed : list Row) (s : State)
  : option State :=
  if confirmed then reloadWith None parsed s else Some s.

(** The style of an option button. *)
Inductive Variant : Type := vNormal | vCorrect | vDim | vWrong.

Definition variant (s : State) (current : Word) (option : string) : Variant :=
  let isCorrect := String.eqb option (answerTerm (mode s) current) in
  match feedback s with
  | None => vNormal
  | Some correct => if isCorrect then vCorrect else vDim
  | Some wrong => if isCorrect then vCorrect else vWrong
  end.

(** The events of a running session: all but the start buttons and the
    settings. *)
Definition inSession (e : Event) : bool :=
  match e with
  | Answer _ | Next _ _ | BackToLobby => true
  | _ => false
  end.

Definition isChangeLimit (e : Event) : bool :=
  match e with ChangeLimit _ => true | _ => false end.

(** Sample rows and stored data. *)
Definition sampleRows : list Row :=
  [ mkRow "1" "cat" "neko"; mkRow "2" "dog" "inu"; mkRow "3" EmptyString "inu";
    mkRow "4" "bird" "tori"; mkRow EmptyString EmptyString EmptyString ].

Definition sampleSaved : list Word :=
  [ mkWord "2" "dog" "inu" 3 0; mkWord "4" "bird" "tori" 0 1;
    mkWord "2" "dog" "inu" 1 1 ].

(** ** The transitions of the component

    What an event makes of a state, case by case, with every state variable
    written out. *)

Definition answerable (s : State) : bool :=
  match currentWord s, feedback s, isFinished s with
  | Some _, None, false => true
  | _, _, _ => false
  end.

Definition advanceable (s : State) : bool :=
  match feedback s, isFinished s, currentWord s with
  | Some _, false, Some _ => true
  | _, _, _ => false
  end.

Inductive Outcome (s : State) : Event -> State -> Prop :=
| IgnoredAnswer (answer : string) :
    answerable s = false -> Outcome s (Answer answer) s
| IgnoredNext (rnd : JS.Random) (d : Draws) :
    advanceable s = false -> Outcome s (Next rnd d) s
| StartedEmpty (type : SessionType) (rnd : JS.Random) (d : Draws) :
    pickNextWord (filteredWords s) [] type rnd = None ->
    Outcome s (Start type rnd d)
      (mkState (allWords s) (currentWord s) (options s) (feedback s) type
         (mode s) (range s) (sessionLimit s) 0 0 false [] (vocab_data s))
| Started (type : SessionType) (rnd : JS.Random) (d : Draws) (w : Word) :
    pickNextWord (filteredWords s) [] type rnd = Some w ->
    Outcome s (Start type rnd d)
      (mkState (allWords s) (Some w)
         (questionOptions (mode s) (allWords s) w d) None type
         (mode s) (range s) (sessionLimit s) 0 0 false [id w] (vocab_data s))
| Answered (answer : string) (current : Word) :
    currentWord s = Some current -> feedback s = None -> isFinished s = false ->
    let isCorrect := String.eqb answer (answerTerm (mode s) current) in
    Outcome s (Answer answer)
      (mkState (updatedWords (allWords s) current isCorrect) (Some current)
         (options s) (Some (if isCorrect then correct else wrong))
         (sessionType s) (mode s) (range s) (sessionLimit s) (solvedCount s)
         (if isCorrect then correctSession s + 1 else correctSession s)
         false (usedWordIds s)
         (Some (updatedWords (allWords s) current isCorrect)))
| Finished (rnd : JS.Random) (d : Draws) (fb : Feedback) (current : Word) :
    feedback s = Some fb -> isFinished s = false ->
    currentWord s = Some current ->
    sessionLimit s <= solvedCount s + 1 \/
    pickNextWord (filteredWords s) (usedWordIds s) (sessionType s) rnd = None ->
    Outcome s (Next rnd d)
      (mkState (allWords s) None (options s) None (sessionType s) (mode s)
         (range s) (sessionLimit s) (solvedCount s + 1) (correctSession s)
         true (usedWordIds s) (vocab_data s))
| Advanced (rnd : JS.Random) (d : Draws) (fb : Feedback) (current w : Word) :
    feedback s = Some fb -> isFinished s = false ->
    currentWord s = Some current ->
    solvedCount s + 1 < sessionLimit s ->
    pickNextWord (filteredWords s) (usedWordIds s) (sessionType s) rnd = Some w ->
    Outcome s (Next rnd d)
      (mkState (allWords s) (Some w)
         (questionOptions (mode s) (allWords s) w d) None (sessionType s)
         (mode s) (range s) (sessionLimit s) (solvedCount s + 1)
         (correctSession s) false (usedWordIds s ++ [id w]) (vocab_data s))
| WentToLobby :
    Outcome s BackToLobby
      (mkState (allWords s) (currentWord s) (options s) (feedback s) normal
         (mode s) (range s) (sessionLimit s) (solvedCount s)
         (correctSession s) false (usedWordIds s) (vocab_data s))
| Configured (e : Event) (m : Mode) (rg : Range) (limit : Z) :
    inSession e = false -> isStart e = false ->
    (isChangeLimit e = false -> limit = sessionLimit s) ->
    Outcome s e
      (mkState (allWords s) (currentWord s) (options s) (feedback s)
         (sessionType s) m rg limit (solvedCount s) (correctSession s)
         (isFinished s) (usedWordIds s) (vocab_data s)).

(** The counters of the session agree with the record of asked words and
    with the screen. *)
Record Consistent (s : State) : Prop := mkConsistent {
  finished_clear :
    isFinished s = true -> currentWord s = None /\ feedback s = None;
  solved_nonneg : 0 <= solvedCount s;
  correct_bounds :
    0 <= correctSession s /\
    correctSession s <=
      solvedCount s + match feedback s with Some correct => 1 | _ => 0 end;
  used_in_pool : incl (usedWordIds s) (map id (allWords s));
  current_in_pool :
    forall w, currentWord s = Some w -> In (id w) (map id (allWords s))
}.

(** The number of words asked is the number of questions solved, plus one
    while a question is on the screen. *)
Definition Counted (s : State) : Prop :=
  Z.of_nat (List.length (usedWordIds s)) =
  solvedCount s + match currentWord s with Some _ => 1 | None => 0 end.

(** The session has not asked more words than its limit allows; a limit
    below one still lets the first question through. *)
Definition Bounded (limit : Z) (s : State) : Prop :=
  sessionLimit s = limit /\
  solvedCount s + match currentWord s with Some _ => 1 | None => 0 end
    <= Z.max limit 1.

(** A session of the sample pool whose limit is two. *)
Definition limitTwo : State :=
  session threeQuestions (initialState sampleWords enToJa (mkRange 1 100) 2).

Definition dog : Word := mkWord "2" "dog" "inu" 2 0.
Definition hound : Word := mkWord "3" "hound" "inu" 2 1.

(** [n] correct answers in a row for the word [current]. *)
Definition answeredCorrectly (n : nat) (current : Word) (pool : list Word)
  : list Word :=
  Nat.iter n (fun p => updatedWords p current true) pool.

(** A word list in which every [correctTotal] is 0 or 1. *)
Definition flagged (w : Word) : Prop := correctTotal w = 0 \/ correctTotal w = 1.

(** The identity and the terms of a word, and of a row. *)
Definition entry (w : Word) : string * string * string :=
  (id w, english w, japanese w).

Definition rowEntry (r : Row) : string * string * string :=
  (ID r, English r, Japanese r).

(** A row with both terms. *)
Definition complete (r : Row) : bool :=
  truthy (English r) && truthy (Japanese r).

(** Words with one identifier carry the same counters. *)
Definition keyed (pool : list Word) : Prop :=
  forall w w', In w pool -> In w' pool -> id w = id w' ->
               wrongCount w = wrongCount w' /\ correctTotal w = correctTotal w'.

(** A session on the loaded sample rows, with one wrong answer. *)
Definition loadedRun : State :=
  run [Start normal half noShuffle; Answer "neko"; Next half noShuffle]
      (bootState sampleRows (Some sampleSaved) enToJa (mkRange 1 100) 10).

Definition marksCorrect (v : Variant) : bool :=
  match v with vCorrect => true | _ => false end.

(** One round of a session: an answer, then the tap that moves on. *)
Definition playRound (s : State) (r : string * JS.Random * Draws) : State :=
  let '(answer, rnd, d) := r in
  step (step s (Answer answer)) (Next rnd d).

Definition play (rounds : list (string * JS.Random * Draws)) (s : State)
  : State :=
  fold_left playRound rounds s.

(** A session at a question that waits for its answer, or over. *)
Definition Live (s : State) : Prop :=
  NoDup (usedWordIds s) /\
  incl (usedWordIds s) (map id (allWords s)) /\
  (isFinished s = true \/
   isFinished s = false /\ feedback s = None /\
   exists w, currentWord s = Some w /\ In (id w) (usedWordIds s)).

(** Five rounds with the same answer. *)
Definition fiveRounds : list (string * JS.Random * Draws) :=
  repeat ("inu"%string, half, noShuffle) 5.

(** The number of candidate distractors in the words of the specification:
    the entries of the pool whose term, in the direction of the mode, differs
    from the correct answer. *)
Fixpoint eligibleDistractors (m : Mode) (pool : list Word) (answer : string)
  : nat :=
  match pool with
  | [] => 0%nat
  | w :: rest =>
      let term := match m with enToJa => japanese w | jaToEn => english w end in
      ((if string_dec term answer then 0 else 1)
       + eligibleDistractors m rest answer)%nat
  end.

(** Pools of one and of two words. *)
Definition loneState : State := initialState [cat] enToJa (mkRange 1 100) 10.
Definition pairState : State := initialState [cat; dog] enToJa (mkRange 1 100) 10.

(** The identifier 6 after an ideographic space (U+3000), and an identifier
    that is no number. *)
Definition spaced6 : string :=
  String (ascii_of_nat 227) (String (ascii_of_nat 128)
    (String (ascii_of_nat 128) "6")).

Definition widePool : list Word :=
  [ mkWord spaced6 "six" "roku" 0 0;
    mkWord "9007199254740993" "many" "takusan" 0 0;
    mkWord "x7" "seven" "nana" 0 0 ].

(** Stored data with a [null] among the entries, and stored data whose
    entry for the word 2 holds a text as its counter. *)
Definition nullEntry : JSON := JArray [encodeWord dog; JNull].

Definition textCounter : JSON :=
  JArray [ JObject [ ("id"%string, JString "2");
                     ("wrongCount"%string, JString "many") ] ].

(** A session on the loaded sample rows with one wrong answer, after which
    the limit is set to 25, the range to 2..4 and the mode is turned. *)
Definition reloadScript : list Event :=
  [ Start normal half noShuffle; Answer "neko"; Next half noShuffle;
    ChangeLimit "25"; ChangeStart "2"; ChangeEnd "4"; ChangeMode jaToEn ].

Definition configuredRun : State :=
  run reloadScript
      (bootState sampleRows (Some sampleSaved) enToJa (mkRange 1 100) 10).

(** The loaded sample after the limit was set to [10^21]. *)
Definition largeLimit : State :=
  run [ChangeLimit "1000000000000000000000"]
      (bootState sampleRows (Some sampleSaved) enToJa (mkRange 1 100) 10).

(** The identity and the terms of a word that the load builds. *)
Definition rawEntry (w : RawWord) : string * string * string :=
  (rawId w, rawEnglish w, rawJapanese w).


(** ** Proof steps that recur *)

(** Runs the queued updates of a handler. *)
Ltac unfold_updates :=
  unfold dispatch, seq, skip, finish, setAllWords, setCurrentWord, setOptions,
    setFeedback, setSessionType, setMode, setRange, setSessionLimit,
    setSolvedCount, setCorrectSession, updCorrectSession, setIsFinished,
    setUsedWordIds, updUsedWordIds, storeVocabData; simpl.

(** Closes a case in which the record of asked words is untouched. *)
Ltac stays := apply Stays; [reflexivity | first [now left | now right]].

(** * Properties *)

(** ** Numbers *)

Section Numbers.
Local Open Scope Q_scope.
Local Unset Implicit Arguments.

Lemma nearest_even_error (t : Q) :
  Qabs (inject_Z (JS.nearest_even t) - t) <= 1 # 2.
Proof.
  unfold JS.nearest_even.
  pose proof (Qfloor_le t) as L. pose proof (Qlt_floor t) as U.
  rewrite inject_Z_plus in U. change (inject_Z 1) with 1 in U.
  apply Qabs_Qle_condition.
  destruct (Qcompare_spec (t - inject_Z (Qfloor t)) (1 # 2)) as [E|E|E].
  - destruct (Z.even (Qfloor t)); rewrite ?inject_Z_plus;
      change (inject_Z 1) with 1; lra.
  - lra.
  - rewrite inject_Z_plus. change (inject_Z 1) with 1. lra.
Qed.

Lemma nearest_even_Z (t : Q) (z : Z) : t == inject_Z z -> JS.nearest_even t = z.
Proof.
  intros E. unfold JS.nearest_even.
  assert (F : Qfloor t = z) by (rewrite E; apply Qfloor_Z).
  rewrite F.
  destruct (Qcompare_spec (t - inject_Z z) (1 # 2)) as [K|K|K];
    [lra|reflexivity|lra].
Qed.

Lemma nearest_even_nonneg (t : Q) : 0 <= t -> (0 <= JS.nearest_even t)%Z.
Proof.
  intros H. unfold JS.nearest_even.
  assert (F : (0 <= Qfloor t)%Z).
  { change 0%Z with (Qfloor 0). now apply Qfloor_resp_le. }
  destruct (Qcompare _ _); [destruct (Z.even _)| |]; lia.
Qed.

Lemma pow2_pos (e : Z) : 0 < 2 ^ e.
Proof. apply Qpower_0_lt. reflexivity. Qed.

Lemma pow2_Z (a : Z) : (0 <= a)%Z -> inject_Z (2 ^ a) == 2 ^ a.
Proof. intros H. now rewrite Zpower_Qpower. Qed.

Lemma log2_bounds (n : Z) :
  (0 < n)%Z -> 2 ^ Z.log2 n <= inject_Z n /\ inject_Z n < 2 * 2 ^ Z.log2 n.
Proof.
  intros H. destruct (Z.log2_spec n H) as [L U].
  pose proof (Z.log2_nonneg n) as P.
  rewrite <- pow2_Z by exact P. split.
  - rewrite <- Zle_Qle. exact L.
  - rewrite Z.pow_succ_r in U by exact P.
    change 2 with (inject_Z 2) at 1. rewrite <- inject_Z_mult, <- Zlt_Qlt.
    exact U.
Qed.

Lemma cross_lt (A B N D : Q) :
  0 < A -> A <= N -> 0 < D -> D < B -> A / B < N / D.
Proof.
  intros HA HN HD HB.
  apply Qlt_shift_div_l; [exact HD|].
  unfold Qdiv. rewrite <- Qmult_assoc, (Qmult_comm (/ B)), Qmult_assoc.
  apply Qlt_shift_div_r; [lra|]. nra.
Qed.

Lemma cross_lt' (A B N D : Q) :
  0 < N -> N < A -> 0 < B -> B <= D -> N / D < A / B.
Proof.
  intros HN HA HB HD.
  apply Qlt_shift_div_r; [lra|].
  unfold Qdiv. rewrite <- Qmult_assoc, (Qmult_comm (/ B)), Qmult_assoc.
  apply Qlt_shift_div_l; [exact HB|]. nra.
Qed.

Lemma Qabs_frac (x : Q) :
  Qabs x == inject_Z (Z.abs (Qnum x)) / inject_Z (Zpos (Qden x)).
Proof. destruct x as [n d]. simpl. apply Qmake_Qdiv. Qed.

Lemma exponent_candidate (x : Q) :
  ~ x == 0 ->
  let e := (Z.log2 (Z.abs (Qnum x)) - Z.log2 (Zpos (Qden x)) - 53)%Z in
  2 ^ 52 * 2 ^ e < Qabs x /\ Qabs x < 2 ^ 54 * 2 ^ e.
Proof.
  intros Hx e.
  assert (Hn : (0 < Z.abs (Qnum x))%Z).
  { destruct x as [n d]. unfold Qeq in Hx. simpl in *. lia. }
  destruct (log2_bounds _ Hn) as [Ln Un].
  destruct (log2_bounds (Zpos (Qden x)) eq_refl) as [Ld Ud].
  set (a := Z.log2 (Z.abs (Qnum x))) in *.
  set (b := Z.log2 (Zpos (Qden x))) in *.
  pose proof (pow2_pos a) as Pa. pose proof (pow2_pos b) as Pb.
  assert (E : 2 ^ e == 2 ^ a / (2 ^ b * 2 ^ 53)).
  { unfold e. rewrite !Qpower_minus by discriminate. field;
    intros K; rewrite K in Pb; lra. }
  rewrite Qabs_frac, E. split.
  - setoid_replace (2 ^ 52 * (2 ^ a / (2 ^ b * 2 ^ 53)))
      with (2 ^ a / (2 * 2 ^ b)).
    + apply cross_lt; auto. reflexivity.
    + change (2 ^ 53) with (2 * 2 ^ 52). field;
      intros K; rewrite K in Pb; lra.
  - setoid_replace (2 ^ 54 * (2 ^ a / (2 ^ b * 2 ^ 53)))
      with ((2 * 2 ^ a) / 2 ^ b).
    + apply cross_lt'; auto; lra.
    + change (2 ^ 54) with (2 * 2 ^ 53). field;
      intros K; rewrite K in Pb; lra.
Qed.

Lemma div_le_mult (a b c : Q) : 0 < c -> a <= b / c -> a * c <= b.
Proof.
  intros Hc H. setoid_replace b with (b / c * c) by (field; lra).
  apply Qmult_le_compat_r; lra.
Qed.

Lemma normal_exponent_spec (x : Q) :
  ~ x == 0 ->
  2 ^ 52 * 2 ^ JS.normal_exponent x <= Qabs x /\
  Qabs x < 2 ^ 53 * 2 ^ JS.normal_exponent x.
Proof.
  intros Hx. destruct (exponent_candidate x Hx) as [L U]. unfold JS.normal_exponent.
  set (e := (Z.log2 (Z.abs (Qnum x)) - Z.log2 (Zpos (Qden x)) - 53)%Z) in *.
  pose proof (pow2_pos e) as P.
  destruct (Qle_bool (2 ^ 53) (Qabs x / 2 ^ e)) eqn:B.
  - apply Qle_bool_iff in B.
    assert (B' : 2 ^ 53 * 2 ^ e <= Qabs x)
      by (apply div_le_mult; [exact P|exact B]).
    rewrite Qpower_plus by discriminate. change (2 ^ 1) with 2.
    change (2 ^ 53) with (2 * 2 ^ 52) in B'.
    change (2 ^ 54) with (2 * 2 ^ 53) in U.
    split; lra.
  - assert (B' : Qabs x < 2 ^ 53 * 2 ^ e).
    { apply Qnot_le_lt. intros K. 
      assert (K' : 2 ^ 53 <= Qabs x / 2 ^ e)
        by (apply Qle_shift_div_l; [exact P|exact K]).
      apply Qle_bool_iff in K'. congruence. }
    split; lra.
Qed.

Lemma half_ulp_denormal : 2 ^ (-1074) * (1 # 2) <= 1 # 18446744073709551616.
Proof. unfold Qle. vm_compute. discriminate. Qed.

Lemma toNumber_error (x : Q) :
  Qabs (JS.toNumber x - x) <=
  Qabs x * (1 # 9007199254740992) + (1 # 18446744073709551616).
Proof.
  unfold JS.toNumber. destruct (Qeq_bool x 0) eqn:Z0.
  - apply Qeq_bool_iff in Z0. rewrite Z0. discriminate.
  - assert (Hx : ~ x == 0).
    { intros K. apply Qeq_bool_iff in K. congruence. }
    destruct (normal_exponent_spec x Hx) as [L _].
    pose proof (Qabs_nonneg x) as A.
    pose proof (pow2_pos (JS.exponent x)) as P.
    assert (B : 2 ^ JS.exponent x * (1 # 2) <=
                Qabs x * (1 # 9007199254740992) + (1 # 18446744073709551616)).
    { unfold JS.exponent.
      destruct (Z.max_spec (-1074) (JS.normal_exponent x)) as [[_ ->]|[_ ->]].
      - change (2 ^ 52) with 4503599627370496 in L. lra.
      - pose proof half_ulp_denormal. lra. }
    set (p := 2 ^ JS.exponent x) in *.
    pose proof (nearest_even_error (x / p)) as N.
    set (q := inject_Z (JS.nearest_even (x / p))) in *.
    assert (E : q * p - x == (q - x / p) * p) by (field; lra).
    rewrite E, Qabs_Qmult, (Qabs_pos p) by lra.
    assert (N' : Qabs (q - x / p) * p <= (1 # 2) * p)
      by (apply Qmult_le_compat_r; [exact N|lra]).
    lra.
Qed.

Lemma toNumber_nonneg (x : Q) : 0 <= x -> 0 <= JS.toNumber x.
Proof.
  intros H. unfold JS.toNumber. destruct (Qeq_bool x 0); [discriminate|].
  pose proof (pow2_pos (JS.exponent x)) as P.
  apply Qmult_le_0_compat; [|lra].
  change 0 with (inject_Z 0). rewrite <- Zle_Qle.
  apply nearest_even_nonneg. apply Qle_shift_div_l; [exact P|]. lra.
Qed.

Lemma toNumber_Z (n : Z) :
  (Z.abs n < 2 ^ 53)%Z -> JS.toNumber (inject_Z n) == inject_Z n.
Proof.
  intros H. unfold JS.toNumber. destruct (Qeq_bool (inject_Z n) 0) eqn:Z0.
  - apply Qeq_bool_iff in Z0. now rewrite Z0.
  - assert (Hx : ~ inject_Z n == 0).
    { intros K. apply Qeq_bool_iff in K. congruence. }
    destruct (normal_exponent_spec _ Hx) as [L _].
    assert (He : (JS.exponent (inject_Z n) <= 0)%Z).
    { unfold JS.exponent. apply Z.max_lub; [lia|].
      set (e := JS.normal_exponent (inject_Z n)) in *.
      destruct (Z.leb_spec e 0) as [|G]; [assumption|exfalso].
      assert (G' : 2 ^ 1 <= 2 ^ e)
        by (apply Qpower_le_compat_l; [lia|discriminate]).
      change (2 ^ 1) with 2 in G'.
      assert (A : Qabs (inject_Z n) < 2 ^ 53).
      { change (Qabs (inject_Z n)) with (inject_Z (Z.abs n)).
        change (2 ^ 53) with (inject_Z (2 ^ 53)). now rewrite <- Zlt_Qlt. }
      change (2 ^ 52) with 4503599627370496 in L.
      change (2 ^ 53) with 9007199254740992 in A. lra. }
    clear L. set (e := JS.exponent (inject_Z n)) in *.
    pose proof (pow2_pos e) as P.
    assert (K : inject_Z n / 2 ^ e == inject_Z (n * 2 ^ (- e))).
    { rewrite inject_Z_mult, pow2_Z by lia. rewrite Qpower_opp. field. lra. }
    rewrite (nearest_even_Z _ _ K).
    rewrite inject_Z_mult, pow2_Z by lia. rewrite Qpower_opp. field. lra.
Qed.

Lemma percent_error (c m : Z) :
  (0 <= c)%Z -> (1 <= m)%Z ->
  let r := inject_Z c / inject_Z m in
  let y := JS.toNumber (JS.toNumber r * 100) in
  0 <= r /\ 0 <= y /\
  - (r * (300 # 9007199254740992) + (102 # 18446744073709551616)) <= y - 100 * r
    /\ y - 100 * r <= r * (300 # 9007199254740992) + (102 # 18446744073709551616).
Proof.
  intros Hc Hm r y.
  assert (M : 1 <= inject_Z m) by (change 1 with (inject_Z 1); now rewrite <- Zle_Qle).
  assert (C : 0 <= inject_Z c) by (change 0 with (inject_Z 0); now rewrite <- Zle_Qle).
  assert (R : 0 <= r) by (apply Qle_shift_div_l; lra).
  pose proof (toNumber_error r) as E1. rewrite (Qabs_pos r R) in E1.
  apply Qabs_Qle_condition in E1.
  pose proof (toNumber_nonneg r R) as N1.
  set (y1 := JS.toNumber r) in *.
  assert (N2 : 0 <= y1 * 100) by lra.
  pose proof (toNumber_error (y1 * 100)) as E2. rewrite (Qabs_pos _ N2) in E2.
  apply Qabs_Qle_condition in E2.
  pose proof (toNumber_nonneg _ N2) as N3. fold y in E2, N3.
  repeat split; try assumption; lra.
Qed.

Lemma percent_range (c m : Z) :
  (0 <= c <= m)%Z -> (1 <= m)%Z -> (0 <= figure c m <= 100)%Z.
Proof.
  intros Hc Hm. destruct (percent_error c m (proj1 Hc) Hm) as (R & Y & L & U).
  unfold figure, JS.times, JS.Math_round.
  set (r := inject_Z c / inject_Z m) in *.
  set (y := JS.toNumber (JS.toNumber r * 100)) in *.
  assert (R1 : r <= 1).
  { apply Qle_shift_div_r.
    - change 0 with (inject_Z 0). rewrite <- Zlt_Qlt. lia.
    - rewrite Qmult_1_l, <- Zle_Qle. lia. }
  split.
  - change 0%Z with (Qfloor 0). apply Qfloor_resp_le. lra.
  - pose proof (Qfloor_le (y + (1 # 2))) as F.
    assert (G : inject_Z (Qfloor (y + (1 # 2))) < inject_Z 101)
      by (change (inject_Z 101) with 101; lra).
    rewrite <- Zlt_Qlt in G. lia.
Qed.

Lemma percent_nearest (c m : Z) :
  (0 <= c < 2 ^ 40)%Z -> (1 <= m < 2 ^ 53)%Z ->
  Qabs (inject_Z (figure c m) - 100 * (inject_Z c / inject_Z m)) <= 1 # 2.
Proof.
  intros Hc Hm. destruct (percent_error c m (proj1 Hc) (proj1 Hm)) as (R & Y & L & U).
  unfold figure, JS.times, JS.Math_round.
  set (r := inject_Z c / inject_Z m) in *.
  set (y := JS.toNumber (JS.toNumber r * 100)) in *.
  pose proof (Qfloor_le (y + (1 # 2))) as F.
  pose proof (Qlt_floor (y + (1 # 2))) as G.
  set (p := Qfloor (y + (1 # 2))) in *.
  rewrite inject_Z_plus in G. change (inject_Z 1) with 1 in G.
  assert (M : 1 <= inject_Z m)
    by (change 1 with (inject_Z 1); rewrite <- Zle_Qle; lia).
  assert (M' : inject_Z m < 9007199254740992)
    by (change 9007199254740992 with (inject_Z (2 ^ 53)); rewrite <- Zlt_Qlt; lia).
  assert (C : inject_Z c < 1099511627776)
    by (change 1099511627776 with (inject_Z (2 ^ 40)); rewrite <- Zlt_Qlt; lia).
  assert (C0 : 0 <= inject_Z c)
    by (change 0 with (inject_Z 0); rewrite <- Zle_Qle; lia).
  assert (E : r * inject_Z m == inject_Z c) by (unfold r; field; lra).
  set (P := inject_Z p) in *. set (Mq := inject_Z m) in *.
  set (Cq := inject_Z c) in *.
  assert (inj : forall a b : Z, (a <= b)%Z -> inject_Z a <= inject_Z b)
    by (intros a b K; rewrite <- Zle_Qle; exact K).
  apply Qabs_Qle_condition. apply and_comm. split.
  - destruct (Z.le_gt_cases (2 * p * m) (200 * c + m)) as [H|H].
    + apply inj in H.
      rewrite inject_Z_plus, !inject_Z_mult in H. fold P Mq Cq in H.
      change (inject_Z 2) with 2 in H. change (inject_Z 200) with 200 in H.
      rewrite <- E in H.
      assert (K' : 2 * P - 1 - 200 * r <= 0).
      { apply Qnot_lt_le. intros A.
        assert (0 < (2 * P - 1 - 200 * r) * Mq)
          by (apply Qmult_lt_0_compat; lra). lra. }
      lra.
    + exfalso. assert (H' : (200 * c + m + 1 <= 2 * p * m)%Z) by lia.
      apply inj in H'.
      rewrite !inject_Z_plus, !inject_Z_mult in H'. fold P Mq Cq in H'.
      change (inject_Z 2) with 2 in H'. change (inject_Z 1) with 1 in H'.
      change (inject_Z 200) with 200 in H'.
      assert (K : (2 * P - 1) * Mq <= 2 * y * Mq)
        by (apply Qmult_le_compat_r; lra).
      assert (K2 : (2 * y) * Mq <=
                   (200 * r + r * (600 # 9007199254740992)
                    + (204 # 18446744073709551616)) * Mq)
        by (apply Qmult_le_compat_r; lra).
      assert (K3 : (200 * r + r * (600 # 9007199254740992)
                    + (204 # 18446744073709551616)) * Mq
                   == 200 * Cq + Cq * (600 # 9007199254740992)
                      + (204 # 18446744073709551616) * Mq)
        by (rewrite <- E; ring).
      lra.
  - destruct (Z.le_gt_cases (200 * c) (2 * p * m + m)) as [H|H].
    + apply inj in H.
      rewrite inject_Z_plus, !inject_Z_mult in H. fold P Mq Cq in H.
      change (inject_Z 2) with 2 in H. change (inject_Z 200) with 200 in H.
      rewrite <- E in H.
      assert (K' : 200 * r - 2 * P - 1 <= 0).
      { apply Qnot_lt_le. intros A.
        assert (0 < (200 * r - 2 * P - 1) * Mq)
          by (apply Qmult_lt_0_compat; lra). lra. }
      lra.
    + exfalso. assert (H' : (2 * p * m + m + 1 <= 200 * c)%Z) by lia.
      apply inj in H'.
      rewrite !inject_Z_plus, !inject_Z_mult in H'. fold P Mq Cq in H'.
      change (inject_Z 2) with 2 in H'. change (inject_Z 1) with 1 in H'.
      change (inject_Z 200) with 200 in H'.
      assert (K : 2 * y * Mq < (2 * P + 1) * Mq).
      { apply Qmult_lt_compat_r; lra. }
      assert (K2 : (200 * r - r * (600 # 9007199254740992)
                    - (204 # 18446744073709551616)) * Mq
                   <= (2 * y) * Mq)
        by (apply Qmult_le_compat_r; lra).
      assert (K3 : (200 * r - r * (600 # 9007199254740992)
                    - (204 # 18446744073709551616)) * Mq
                   == 200 * Cq - Cq * (600 # 9007199254740992)
                      - (204 # 18446744073709551616) * Mq)
        by (rewrite <- E; ring).
      lra.
Qed.

Lemma nearest_even_ge (t : Q) (k : Z) :
  inject_Z k <= t -> (k <= JS.nearest_even t)%Z.
Proof.
  intros H. unfold JS.nearest_even.
  assert (F : (k <= Qfloor t)%Z).
  { rewrite <- (Qfloor_Z k). now apply Qfloor_resp_le. }
  destruct (Qcompare _ _); [destruct (Z.even _)| |]; lia.
Qed.

(** Rounding does not take a rational from [2^53] on below [2^53]. *)
Lemma toNumber_large (x : Q) :
  inject_Z (2 ^ 53) <= x -> inject_Z (2 ^ 53) <= JS.toNumber x.
Proof.
  change (inject_Z (2 ^ 53)) with 9007199254740992. intros H.
  assert (Hx : ~ x == 0) by (intros K; lra).
  unfold JS.toNumber. destruct (Qeq_bool x 0) eqn:Z0.
  { apply Qeq_bool_iff in Z0. now elim Hx. }
  destruct (normal_exponent_spec x Hx) as [L U].
  rewrite Qabs_pos in L, U by lra.
  change (2 ^ 52) with 4503599627370496 in L.
  change (2 ^ 53) with 9007199254740992 in U.
  assert (He : (1 <= JS.normal_exponent x)%Z).
  { destruct (Z.le_gt_cases 1 (JS.normal_exponent x)) as [|G]; [assumption|].
    exfalso.
    assert (G' : 2 ^ JS.normal_exponent x <= 2 ^ 0)
      by (apply Qpower_le_compat_l; [lia|discriminate]).
    change (2 ^ 0) with 1 in G'. lra. }
  assert (E : JS.exponent x = JS.normal_exponent x)
    by (unfold JS.exponent; lia).
  rewrite E. set (e := JS.normal_exponent x) in *.
  assert (P : 2 ^ 1 <= 2 ^ e)
    by (apply Qpower_le_compat_l; [lia|discriminate]).
  change (2 ^ 1) with 2 in P.
  assert (T : inject_Z 4503599627370496 <= x / 2 ^ e).
  { change (inject_Z 4503599627370496) with 4503599627370496.
    apply Qle_shift_div_l; lra. }
  apply nearest_even_ge in T. rewrite Zle_Qle in T.
  change (inject_Z 4503599627370496) with 4503599627370496 in T.
  set (q := inject_Z (JS.nearest_even (x / 2 ^ e))) in *.
  assert (K : 4503599627370496 * 2 ^ e <= q * 2 ^ e)
    by (apply Qmult_le_compat_r; lra).
  lra.
Qed.

Lemma toInteger_safe (n : Z) : (Z.abs n < 2 ^ 53)%Z -> JS.toInteger n = n.
Proof.
  intros H.
  assert (E : Qfloor (JS.toNumber (inject_Z n)) = n)
    by (rewrite (toNumber_Z n H); apply Qfloor_Z).
  unfold JS.toInteger. rewrite E.
  assert (B : (2 ^ 53 < JS.infinity)%Z) by reflexivity.
  destruct (Z.leb_spec JS.infinity n); [lia|].
  destruct (Z.leb_spec n (- JS.infinity)); [lia|reflexivity].
Qed.

End Numbers.

(** ** The built-ins *)

Section SortFacts.
Variable A : Type.
Variable compareFn : A -> A -> Z.

Lemma insert_perm (x : A) (l : list A) :
  Permutation (JS.insert compareFn x l) (x :: l).
Proof.
  induction l as [|y t IH]; simpl; [reflexivity|].
  destruct (0 <? compareFn x y); [|reflexivity].
  rewrite IH. apply perm_swap.
Qed.

Lemma Array_sort_perm (l : list A) :
  Permutation (JS.Array_sort compareFn l) l.
Proof.
  induction l as [|x t IH]; simpl; [constructor|].
  rewrite insert_perm. now constructor.
Qed.

Lemma hd_insert (x : A) (l : list A) :
  hd_error (JS.insert compareFn x l) =
  match hd_error l with
  | Some y => if 0 <? compareFn x y then Some y else Some x
  | None => Some x
  end.
Proof.
  destruct l as [|y t]; simpl; [reflexivity|].
  now destruct (0 <? compareFn x y).
Qed.

(** An inserted element passes only elements it must follow. *)
Lemma insert_split (x : A) (l : list A) :
  exists l1 l2, l = l1 ++ l2 /\ JS.insert compareFn x l = l1 ++ x :: l2 /\
                Forall (fun y => 0 < compareFn x y) l1 /\
                (forall y, hd_error l2 = Some y -> compareFn x y <= 0).
Proof.
  induction l as [|y t IH]; simpl.
  - exists [], []. repeat split; auto. discriminate.
  - destruct (0 <? compareFn x y) eqn:E.
    + destruct IH as (l1 & l2 & -> & -> & F & H).
      exists (y :: l1), l2. repeat split; auto.
      constructor; auto. now apply Z.ltb_lt.
    + exists [], (y :: t). repeat split; auto.
      intros z [= <-]. now apply Z.ltb_ge.
Qed.
End SortFacts.

Section ShuffleFacts.
Variable A : Type.

Lemma remove_nth_perm (i : nat) (l : list A) (d : A) :
  (i < List.length l)%nat -> Permutation (nth i l d :: JS.remove_nth i l) l.
Proof.
  revert i. induction l as [|x t IH]; intros i Hi; simpl in *; [lia|].
  destruct i as [|j]; simpl; [reflexivity|].
  etransitivity; [apply perm_swap|]. constructor. apply IH. lia.
Qed.

(** The coin-flipping sort rearranges the array, whatever the coins. *)
Lemma Array_sort_random_perm (code : list nat) (l : list A) :
  Permutation (JS.Array_sort_random code l) l.
Proof.
  revert l. induction code as [|k code IH]; intros l; simpl; [reflexivity|].
  destruct l as [|x t]; [reflexivity|].
  set (i := Nat.modulo k (List.length (x :: t))).
  rewrite IH. apply remove_nth_perm.
  apply Nat.mod_upper_bound. discriminate.
Qed.

Lemma remove_nth_app (l1 l2 : list A) (x : A) :
  JS.remove_nth (List.length l1) (l1 ++ x :: l2) = l1 ++ l2.
Proof.
  induction l1 as [|y t IH]; simpl; [reflexivity|]. now rewrite IH.
Qed.

Lemma Array_sort_random_cons (k : nat) (code : list nat) (l : list A) (d : A) :
  l <> [] ->
  JS.Array_sort_random (k :: code) l =
  nth (Nat.modulo k (List.length l)) l d ::
  JS.Array_sort_random code (JS.remove_nth (Nat.modulo k (List.length l)) l).
Proof.
  intros Hl. destruct l as [|x t]; [congruence|].
  cbn [JS.Array_sort_random]. f_equal.
  apply nth_indep. apply Nat.mod_upper_bound. discriminate.
Qed.

(** Every rearrangement is the outcome of some sequence of coins: the code
    loses no behaviour of the sort. *)
Lemma Array_sort_random_complete (l l' : list A) :
  Permutation l l' -> exists code, JS.Array_sort_random code l = l'.
Proof.
  revert l. induction l' as [|x t IH]; intros l P.
  - apply Permutation_sym, Permutation_nil in P. subst. now exists [].
  - assert (I : In x l) by (eapply Permutation_in;
      [apply Permutation_sym; exact P | now left]).
    apply in_split in I. destruct I as (l1 & l2 & ->).
    apply Permutation_sym, Permutation_cons_app_inv, Permutation_sym in P.
    destruct (IH _ P) as [code Hc].
    exists (List.length l1 :: code).
    assert (L : (List.length l1 < List.length (l1 ++ x :: l2))%nat)
      by (rewrite length_app; simpl; lia).
    rewrite (@Array_sort_random_cons _ _ _ x) by (destruct l1; discriminate).
    rewrite Nat.mod_small by exact L.
    rewrite remove_nth_app, Hc.
    rewrite app_nth2, Nat.sub_diag by lia. reflexivity.
Qed.
End ShuffleFacts.

Lemma Math_floor_times_lt (r : JS.Random) (n : nat) :
  (0 < n)%nat -> (JS.Math_floor_times r n < n)%nat.
Proof.
  intros Hn. unfold JS.Math_floor_times.
  pose proof (JS.in_unit r) as H. apply Nat.ltb_lt in H.
  apply Nat.Div0.div_lt_upper_bound. nia.
Qed.

(** ** Selection of the next word *)

Lemma firstMax_some (l : list Word) : l <> [] -> exists w, firstMax l = Some w.
Proof.
  destruct l as [|x t]; [congruence|]. intros _. simpl.
  destruct (firstMax t) as [y|]; [|eauto].
  destruct (wrongCount x <? wrongCount y); eauto.
Qed.

Lemma firstMax_split (l : list Word) (w : Word) :
  firstMax l = Some w ->
  exists l1 l2, l = l1 ++ w :: l2 /\
                Forall (fun v => wrongCount v < wrongCount w) l1 /\
                Forall (fun v => wrongCount v <= wrongCount w) l2.
Proof.
  revert w. induction l as [|x t IH]; intros w; simpl; [discriminate|].
  destruct (firstMax t) as [y|] eqn:E.
  - destruct (IH y eq_refl) as (l1 & l2 & -> & F1 & F2).
    destruct (wrongCount x <? wrongCount y) eqn:C; intros [= <-].
    + apply Z.ltb_lt in C. exists (x :: l1), l2. repeat split; auto.
    + apply Z.ltb_ge in C. exists [], (l1 ++ y :: l2). repeat split; auto.
      apply Forall_app. split.
      * eapply Forall_impl; [|exact F1]. simpl. intros; lia.
      * constructor; [lia|]. eapply Forall_impl; [|exact F2]. simpl. intros; lia.
  - intros [= <-]. destruct t as [|z t'].
    + exists [], []. repeat split; auto.
    + destruct (@firstMax_some (z :: t')) as [u Hu]; [discriminate|]. congruence.
Qed.

Lemma hd_sort_firstMax (l : list Word) :
  hd_error (JS.Array_sort byWrongCountDesc l) = firstMax l.
Proof.
  induction l as [|x t IH]; simpl; [reflexivity|].
  rewrite hd_insert, IH. destruct (firstMax t) as [y|]; [|reflexivity].
  unfold byWrongCountDesc.
  replace (0 <? wrongCount y - wrongCount x) with (wrongCount x <? wrongCount y);
    [reflexivity|].
  destruct (Z.ltb_spec (wrongCount x) (wrongCount y));
    destruct (Z.ltb_spec 0 (wrongCount y - wrongCount x)); auto; lia.
Qed.

(** The model of [sort] is a stable descending sort. *)
Lemma Array_sort_stableDescending (l : list Word) :
  stableDescending l (JS.Array_sort byWrongCountDesc l).
Proof.
  split; [apply Permutation_sym, Array_sort_perm|]. split.
  - induction l as [|x t IH]; simpl; [constructor|].
    destruct (insert_split byWrongCountDesc x (JS.Array_sort byWrongCountDesc t))
      as (l1 & l2 & E & -> & F & H).
    rewrite E in IH. clear E.
    induction l1 as [|y l1 IH1]; simpl in *.
    + constructor; [exact IH|].
      destruct l2 as [|z l2]; [constructor|].
      specialize (H z eq_refl). unfold byWrongCountDesc in H.
      inversion IH; subst. constructor; [lia|].
      eapply Forall_impl; [|eassumption]. simpl. intros; lia.
    + inversion IH; subst. inversion F; subst. constructor; [now apply IH1|].
      apply Forall_app. apply Forall_app in H3. destruct H3 as [Ha Hb].
      split; [exact Ha|]. constructor; [|exact Hb].
      unfold byWrongCountDesc in H4. lia.
  - intros k. induction l as [|x t IH]; simpl; [reflexivity|].
    destruct (insert_split byWrongCountDesc x (JS.Array_sort byWrongCountDesc t))
      as (l1 & l2 & E & -> & F & _).
    rewrite <- IH, E, !filter_app. simpl.
    destruct (wrongCount x =? k) eqn:Ek; [|reflexivity].
    apply Z.eqb_eq in Ek.
    assert (N : filter (fun w => wrongCount w =? k) l1 = []).
    { clear -F Ek. induction F as [|y l1 Hy F IH]; simpl; [reflexivity|].
      unfold byWrongCountDesc in Hy.
      destruct (Z.eqb_spec (wrongCount y) k); [lia|exact IH]. }
    now rewrite N.
Qed.

(** Any stable descending sort begins with the first word of greatest
    [wrongCount]: the result of [pickNextWord] does not depend on the sorting
    algorithm of the engine. *)
Lemma stableDescending_head (l l' : list Word) :
  stableDescending l l' -> hd_error l' = firstMax l.
Proof.
  intros (P & S & K). destruct l' as [|y t'].
  - apply Permutation_sym, Permutation_nil in P. now subst.
  - simpl. specialize (K (wrongCount y)). simpl in K.
    rewrite Z.eqb_refl in K.
    assert (B : Forall (fun v => wrongCount v <= wrongCount y) l).
    { apply Forall_forall. intros v Hv.
      apply (Permutation_in _ P) in Hv. destruct Hv as [<-|Hv]; [lia|].
      inversion S; subst. rewrite Forall_forall in H2. now apply H2. }
    clear P S. revert K B. generalize (filter (fun w => wrongCount w =? wrongCount y) t').
    intros r. induction l as [|x t IH]; simpl; [discriminate|].
    intros K B. inversion B; subst.
    destruct (Z.eqb_spec (wrongCount x) (wrongCount y)) as [E|N].
    + injection K as Exy _. subst x.
      destruct (firstMax t) as [z|] eqn:Ez; [|reflexivity].
      apply firstMax_split in Ez. destruct Ez as (l1 & l2 & -> & _ & _).
      apply Forall_app in H2. destruct H2 as [_ H2]. inversion H2; subst.
      destruct (Z.ltb_spec (wrongCount y) (wrongCount z)); [lia|reflexivity].
    + rewrite <- (IH K H2).
      destruct (Z.ltb_spec (wrongCount x) (wrongCount y)); [reflexivity|lia].
Qed.

Lemma pickNextWord_available filtered excludeIds type rnd w :
  pickNextWord filtered excludeIds type rnd = Some w ->
  In w (availableWords filtered excludeIds).
Proof.
  unfold pickNextWord.
  destruct (availableWords filtered excludeIds) as [|a l] eqn:E; [discriminate|].
  destruct type; unfold JS.Array_get; intros H.
  - eapply nth_error_In; eauto.
  - apply nth_error_In in H.
    eapply Permutation_in; [apply Array_sort_perm|exact H].
Qed.

Lemma includes_In (excludeIds : list string) (x : string) :
  includes excludeIds x = true <-> In x excludeIds.
Proof.
  unfold includes. rewrite existsb_exists. split.
  - intros (y & Hy & E). apply String.eqb_eq in E. now subst.
  - intros H. exists x. split; [exact H|apply String.eqb_refl].
Qed.

Lemma availableWords_In filtered excludeIds w :
  In w (availableWords filtered excludeIds) <->
  In w filtered /\ ~ In (id w) excludeIds.
Proof.
  unfold availableWords. rewrite filter_In, negb_true_iff.
  rewrite <- includes_In. destruct (includes excludeIds (id w)); intuition congruence.
Qed.

(** [pickNextWord] never returns an excluded word. *)
Lemma pickNextWord_fresh filtered excludeIds type rnd w :
  pickNextWord filtered excludeIds type rnd = Some w ->
  In w filtered /\ ~ In (id w) excludeIds.
Proof.
  intros H. now apply availableWords_In, (pickNextWord_available _ _ _ _ H).
Qed.

(** [pickNextWord] yields [null] exactly when no word is available. *)
Lemma pickNextWord_None filtered excludeIds type rnd :
  pickNextWord filtered excludeIds type rnd = None <->
  availableWords filtered excludeIds = [].
Proof.
  unfold pickNextWord.
  destruct (availableWords filtered excludeIds) as [|a l] eqn:E; [tauto|].
  split; [|discriminate]. destruct type; unfold JS.Array_get.
  - intros H. apply nth_error_None in H.
    pose proof (@Math_floor_times_lt rnd (List.length (a :: l))) as B.
    simpl in *. lia.
  - rewrite nth_error_0, hd_sort_firstMax. 
    destruct (@firstMax_some (a :: l)) as [w Hw]; [discriminate|]. congruence.
Qed.

(** C2. In a training session the choice of the next word is fixed by the
    pool and the available words: whatever the random draws, [pickNextWord]
    returns the same word, that word has the greatest [wrongCount] of the
    available words, and every available word before it in pool order has a
    strictly smaller [wrongCount]. *)
Theorem pickNextWord_training_deterministic
    (filtered : list Word) (excludeIds : list string) :
  availableWords filtered excludeIds <> [] ->
  exists w l1 l2,
    (forall rnd, pickNextWord filtered excludeIds training rnd = Some w) /\
    availableWords filtered excludeIds = l1 ++ w :: l2 /\
    Forall (fun v => wrongCount v < wrongCount w) l1 /\
    Forall (fun v => wrongCount v <= wrongCount w) l2 /\
    (forall sorted, stableDescending (availableWords filtered excludeIds) sorted ->
                    hd_error sorted = Some w).
Proof.
  intros Hne. destruct (firstMax_some Hne) as [w Hw].
  destruct (firstMax_split _ Hw) as (l1 & l2 & E & F1 & F2).
  exists w, l1, l2. repeat split; auto.
  - intros rnd. unfold pickNextWord.
    destruct (availableWords filtered excludeIds) as [|a l]; [congruence|].
    unfold JS.Array_get. now rewrite nth_error_0, hd_sort_firstMax.
  - intros sorted S. now rewrite (stableDescending_head S).
Qed.

Lemma pickNextWord_training_deterministic_witness :
  availableWords (filteredWords sampleState) [] <> [] /\
  exists w l1 l2,
    (forall rnd, pickNextWord (filteredWords sampleState) [] training rnd = Some w) /\
    availableWords (filteredWords sampleState) [] = l1 ++ w :: l2 /\
    Forall (fun v => wrongCount v < wrongCount w) l1 /\
    Forall (fun v => wrongCount v <= wrongCount w) l2 /\
    (forall sorted,
        stableDescending (availableWords (filteredWords sampleState) []) sorted ->
        hd_error sorted = Some w).
Proof.
  split; [vm_compute; discriminate|].
  apply (@pickNextWord_training_deterministic (filteredWords sampleState) []).
  vm_compute. discriminate.
Defined.

(** ** Scoring of an answer *)

Lemma scored_fields (isCorrect : bool) (w : Word) :
  id (scored isCorrect w) = id w /\
  english (scored isCorrect w) = english w /\
  japanese (scored isCorrect w) = japanese w.
Proof. now repeat split. Qed.

Lemma scored_nonneg (isCorrect : bool) (w : Word) :
  nonneg w -> nonneg (scored isCorrect w).
Proof. unfold nonneg. destruct isCorrect; simpl; lia. Qed.

Lemma updatedWords_nth (pool : list Word) (current : Word) (isCorrect : bool)
    (i : nat) :
  nth_error (updatedWords pool current isCorrect) i =
  option_map (fun w => if String.eqb (id w) (id current)
                       then scored isCorrect w else w)
             (nth_error pool i).
Proof. unfold updatedWords. apply nth_error_map. Qed.

Lemma updatedWords_length (pool : list Word) (current : Word) (isCorrect : bool) :
  List.length (updatedWords pool current isCorrect) = List.length pool.
Proof. unfold updatedWords. apply length_map. Qed.

Lemma updatedWords_ids (pool : list Word) (current : Word) (isCorrect : bool) :
  map id (updatedWords pool current isCorrect) = map id pool.
Proof.
  unfold updatedWords. rewrite map_map. apply map_ext. intros w.
  now destruct (String.eqb (id w) (id current)).
Qed.

Lemma updatedWords_nonneg (pool : list Word) (current : Word) (isCorrect : bool) :
  Forall nonneg pool -> Forall nonneg (updatedWords pool current isCorrect).
Proof.
  intros F. unfold updatedWords. apply Forall_map.
  eapply Forall_impl; [|exact F]. intros w Hw. simpl.
  destruct (String.eqb (id w) (id current)); [now apply scored_nonneg|exact Hw].
Qed.

(** The pool after an event is the pool before it, or the pool updated for
    the current word. *)
Lemma allWords_step (s : State) (e : Event) :
  allWords (step s e) = allWords s \/
  exists current isCorrect, currentWord s = Some current /\
    allWords (step s e) = updatedWords (allWords s) current isCorrect.
Proof.
  destruct e; unfold step, handler; try (left; reflexivity).
  - left. unfold dispatch, startSession.
    destruct (pickNextWord (filteredWords s) [] type rnd); reflexivity.
  - unfold dispatch, handleAnswer.
    destruct (currentWord s) as [cw|] eqn:Ec; [|now left].
    destruct (feedback s); [now left|]. destruct (isFinished s); [now left|].
    right. exists cw, (String.eqb answer (answerTerm (mode s) cw)). split; auto.
  - left. unfold dispatch, proceedNext.
    destruct (feedback s); [|reflexivity]. destruct (isFinished s); [reflexivity|].
    destruct (currentWord s); [|reflexivity].
    destruct (sessionLimit s <=? solvedCount s + 1); [reflexivity|].
    destruct (pickNextWord _ _ _ _); reflexivity.
Qed.



(** C9. The pool written by [handleAnswer] has the length and the order of
    the pool it read: entry by entry the identifier and the two terms are
    kept, and an entry whose identifier differs from that of the current word
    is kept whole, counters included. *)
Theorem handleAnswer_frame (s : State) (answer : string) (i : nat) (w : Word) :
  nth_error (allWords s) i = Some w ->
  List.length (allWords (dispatch (handleAnswer answer) s)) =
    List.length (allWords s) /\
  map id (allWords (dispatch (handleAnswer answer) s)) = map id (allWords s) /\
  exists w',
    nth_error (allWords (dispatch (handleAnswer answer) s)) i = Some w' /\
    id w' = id w /\ english w' = english w /\ japanese w' = japanese w /\
    ((forall current, currentWord s = Some current -> id w <> id current) ->
     w' = w).
Proof.
  intros Hi. unfold dispatch, handleAnswer.
  destruct (currentWord s) as [cw|] eqn:Ec;
    [destruct (feedback s); [|destruct (isFinished s)]|];
    try (unfold skip; repeat split; auto; exists w; repeat split; auto).
  unfold_updates.
  split; [apply updatedWords_length|]. split; [apply updatedWords_ids|].
  rewrite updatedWords_nth, Hi. simpl.
  destruct (String.eqb_spec (id w) (id cw)) as [E|N].
  - exists (scored (String.eqb answer (answerTerm (mode s) cw)) w).
    repeat split; auto. intros H. now elim (H cw eq_refl).
  - exists w. repeat split; auto.
Qed.

Lemma handleAnswer_frame_witness :
  List.length (allWords (dispatch (handleAnswer "neko") answeringState)) =
    List.length (allWords answeringState) /\
  map id (allWords (dispatch (handleAnswer "neko") answeringState)) =
    map id (allWords answeringState) /\
  exists w',
    nth_error (allWords (dispatch (handleAnswer "neko") answeringState)) 2 = Some w' /\
    id w' = "3"%string /\ english w' = "hound"%string /\
    japanese w' = "inu"%string /\
    ((forall current, currentWord answeringState = Some current ->
                      "3"%string <> id current) ->
     w' = mkWord "3" "hound" "inu" 2 1).
Proof.
  apply (@handleAnswer_frame answeringState "neko" 2%nat
           (mkWord "3" "hound" "inu" 2 1)).
  reflexivity.
Defined.

Lemma run_nonneg (events : list Event) (s : State) :
  Forall nonneg (allWords s) -> Forall nonneg (allWords (run events s)).
Proof.
  revert s. induction events as [|e events IH]; intros s F; simpl; [exact F|].
  apply IH. destruct (allWords_step s e) as [->|(cw & ok & _ & ->)];
    [exact F|now apply updatedWords_nonneg].
Qed.

(** C4. If no word of the pool has a negative [wrongCount], none has after
    any sequence of pool updates, whichever words are answered and whether
    the answers are correct or not; and none has in any state the component
    reaches through its events. *)
Theorem wrongCount_never_negative (pool : list Word) :
  Forall nonneg pool ->
  (forall answers : list (Word * bool),
      Forall nonneg
        (fold_left (fun p a => updatedWords p (fst a) (snd a)) answers pool)) /\
  (forall (s : State) (events : list Event),
      allWords s = pool -> Forall nonneg (allWords (run events s))).
Proof.
  intros F. split.
  - intros answers. revert pool F.
    induction answers as [|[cw ok] answers IH]; intros pool F; simpl; [exact F|].
    apply IH. now apply updatedWords_nonneg.
  - intros s events <-. now apply run_nonneg.
Qed.

Lemma wrongCount_never_negative_witness :
  (forall answers : list (Word * bool),
      Forall nonneg
        (fold_left (fun p a => updatedWords p (fst a) (snd a)) answers sampleWords)) /\
  (forall (s : State) (events : list Event),
      allWords s = sampleWords -> Forall nonneg (allWords (run events s))).
Proof.
  apply (@wrongCount_never_negative sampleWords).
  unfold sampleWords, nonneg. repeat constructor; simpl; lia.
Defined.

(** C7. [handleAnswer] changes nothing when there is no current word, when
    the question is already answered or when the session is finished;
    [proceedNext] changes nothing when the question is not answered, when the
    session is finished or when there is no current word.  The state after
    the event is the state before it, the stored [vocab-data] included. *)
Theorem invalid_calls_are_noops (s : State) (answer : string)
    (rnd : JS.Random) (d : Draws) :
  (currentWord s = None \/ feedback s <> None \/ isFinished s = true ->
   dispatch (handleAnswer answer) s = s) /\
  (feedback s = None \/ isFinished s = true \/ currentWord s = None ->
   dispatch (proceedNext rnd d) s = s).
Proof.
  split; intros H; unfold dispatch, handleAnswer, proceedNext, skip.
  - destruct (currentWord s); [|reflexivity].
    destruct (feedback s); [reflexivity|].
    destruct (isFinished s); [reflexivity|].
    destruct H as [H|[H|H]]; congruence.
  - destruct (feedback s); [|reflexivity].
    destruct (isFinished s); [reflexivity|].
    destruct (currentWord s); [|reflexivity].
    destruct H as [H|[H|H]]; congruence.
Qed.

Lemma invalid_calls_are_noops_witness :
  dispatch (handleAnswer "neko") sampleState = sampleState /\
  dispatch (proceedNext half noShuffle) answeringState = answeringState.
Proof.
  destruct (@invalid_calls_are_noops sampleState "neko" half noShuffle) as [H _].
  destruct (@invalid_calls_are_noops answeringState "neko" half noShuffle) as [_ K].
  split; [apply H; left; reflexivity | apply K; left; reflexivity].
Defined.

(** ** Advancing to the next question *)

(** C6. [proceedNext] on an answered question of a running session adds one
    to [solvedCount].  When the new count reaches [sessionLimit], or when
    [pickNextWord] yields no word, the session is finished and the current
    word and the feedback are cleared.  Otherwise the word that
    [pickNextWord] yields becomes the current question, set up by
    [setupQuestion], and the session is not finished. *)
Theorem proceedNext_advances (s : State) (rnd : JS.Random) (d : Draws)
    (fb : Feedback) (current : Word) :
  feedback s = Some fb -> isFinished s = false -> currentWord s = Some current ->
  let s' := dispatch (proceedNext rnd d) s in
  let next := pickNextWord (filteredWords s) (usedWordIds s) (sessionType s) rnd in
  solvedCount s' = solvedCount s + 1 /\
  (solvedCount s + 1 >= sessionLimit s \/ next = None ->
   isFinished s' = true /\ currentWord s' = None /\ feedback s' = None /\
   render s' = Result (accuracyPercent s') (solvedCount s + 1) (correctSession s)) /\
  (forall nextWord,
      solvedCount s + 1 < sessionLimit s -> next = Some nextWord ->
      s' = setupQuestion nextWord d s (setSolvedCount (solvedCount s + 1) s) /\
      isFinished s' = false /\ currentWord s' = Some nextWord /\
      feedback s' = None /\
      options s' = questionOptions (mode s) (allWords s) nextWord d /\
      render s' = Question nextWord (options s') None).
Proof.
  intros Hf Hfin Hc s' next. subst s' next.
  unfold dispatch, proceedNext. rewrite Hf, Hfin, Hc.
  destruct (Z.leb_spec (sessionLimit s) (solvedCount s + 1)) as [L|L].
  - split; [reflexivity|]. split.
    + intros _. now repeat split.
    + intros nextWord H. lia.
  - destruct (pickNextWord _ _ _ _) as [nw|] eqn:E.
    + split; [reflexivity|]. split.
      * intros [H|H]; [lia|discriminate].
      * intros nextWord _ [= <-]. 
        repeat split; unfold render; unfold_updates; now rewrite ?Hfin.
    + split; [reflexivity|]. split.
      * intros _. now repeat split.
      * intros nextWord _ H. discriminate.
Qed.

Lemma proceedNext_advances_witness :
  let s := answeredState in
  let s' := dispatch (proceedNext half noShuffle) s in
  let next := pickNextWord (filteredWords s) (usedWordIds s) (sessionType s) half in
  solvedCount s' = solvedCount s + 1 /\
  (solvedCount s + 1 >= sessionLimit s \/ next = None ->
   isFinished s' = true /\ currentWord s' = None /\ feedback s' = None /\
   render s' = Result (accuracyPercent s') (solvedCount s + 1) (correctSession s)) /\
  (forall nextWord,
      solvedCount s + 1 < sessionLimit s -> next = Some nextWord ->
      s' = setupQuestion nextWord noShuffle s (setSolvedCount (solvedCount s + 1) s) /\
      isFinished s' = false /\ currentWord s' = Some nextWord /\
      feedback s' = None /\
      options s' = questionOptions (mode s) (allWords s) nextWord noShuffle /\
      render s' = Question nextWord (options s') None).
Proof.
  apply (@proceedNext_advances answeredState half noShuffle correct
           (mkWord "2" "dog" "inu" 2 0)); reflexivity.
Defined.

(** ** The result screen *)

Lemma orOneZ_max (n : Z) : 0 <= n -> orOneZ n = Z.max n 1.
Proof. unfold orOneZ. destruct (Z.eqb_spec n 0); lia. Qed.

Lemma orOneZ_nonzero (n : Z) : orOneZ n <> 0.
Proof. unfold orOneZ. destruct (Z.eqb_spec n 0); lia. Qed.

(** The counters of a session never go below zero. *)
Lemma solvedCount_step (s : State) (e : Event) :
  0 <= solvedCount s -> 0 <= solvedCount (step s e).
Proof.
  intros H. destruct e; unfold step, handler, dispatch; try exact H.
  - unfold startSession. destruct (pickNextWord _ _ _ _); unfold_updates; lia.
  - unfold handleAnswer.
    destruct (currentWord s); [|exact H]. destruct (feedback s); [exact H|].
    destruct (isFinished s); [exact H|].
    destruct (String.eqb _ _); unfold_updates; exact H.
  - unfold proceedNext.
    destruct (feedback s); [|exact H]. destruct (isFinished s); [exact H|].
    destruct (currentWord s); [|exact H].
    destruct (sessionLimit s <=? solvedCount s + 1); [unfold_updates; lia|].
    destruct (pickNextWord _ _ _ _); unfold_updates; lia.
Qed.

Lemma solvedCount_run (events : list Event) (s : State) :
  0 <= solvedCount s -> 0 <= solvedCount (run events s).
Proof.
  revert s. induction events as [|e events IH]; intros s H; simpl; [exact H|].
  now apply IH, solvedCount_step.
Qed.

Lemma accuracyPercent_guarded (s : State) :
  0 <= solvedCount s ->
  accuracyPercent s =
  Some (figure (correctSession s) (Z.max (solvedCount s) 1)).
Proof.
  intros Hs. unfold accuracyPercent, JS.divide.
  pose proof (orOneZ_nonzero (solvedCount s)) as Hz.
  apply Z.eqb_neq in Hz. now rewrite Hz, orOneZ_max by exact Hs.
Qed.

(** The division is guarded in every state the component reaches. *)
Lemma accuracyPercent_reachable pool m rg limit (events : list Event) :
  let s := run events (initialState pool m rg limit) in
  accuracyPercent s =
  Some (figure (correctSession s) (Z.max (solvedCount s) 1)).
Proof.
  intros s. apply accuracyPercent_guarded, solvedCount_run. simpl. lia.
Qed.

(** C8. On the result screen of a session whose [solvedCount] lies between 0
    and [2^53] and whose [correctSession] lies between 0 and [2^40], the
    figure shown is a whole number nearest to the percentage, one hundred
    times the quotient of [correctSession] by the greater of [solvedCount]
    and 1: the two differ by one half at most.  The division always has a
    non-zero divisor.  With ten questions solved and seven answered correctly
    the figure is 70.  The quotient and the product are rounded before
    [Math.round] sees them, so that a percentage half way between two whole
    numbers may go down: with forty questions solved and twenty-three
    answered correctly the figure is 57. *)
Theorem result_screen_accuracy (s : State) :
  isFinished s = true -> 0 <= solvedCount s < 2 ^ 53 ->
  0 <= correctSession s < 2 ^ 40 ->
  exists p,
    render s = Result (Some p) (solvedCount s) (correctSession s) /\
    (Qabs (inject_Z p
           - 100 * (inject_Z (correctSession s)
                    / inject_Z (Z.max (solvedCount s) 1))) <= 1 # 2)%Q /\
    (solvedCount s = 10 -> correctSession s = 7 -> p = 70) /\
    (solvedCount s = 40 -> correctSession s = 23 -> p = 57).
Proof.
  intros Hfin Hs Hc.
  exists (figure (correctSession s) (Z.max (solvedCount s) 1)).
  split; [|split; [|split]].
  - unfold render. rewrite Hfin.
    now rewrite accuracyPercent_guarded by apply Hs.
  - apply percent_nearest; lia.
  - intros -> ->. vm_compute. reflexivity.
  - intros -> ->. vm_compute. reflexivity.
Qed.

Lemma result_screen_accuracy_witness :
  render sevenOfTen = Result (Some 70) 10 7 /\
  render twentyThreeOfForty = Result (Some 57) 40 23.
Proof.
  split.
  - destruct (@result_screen_accuracy sevenOfTen) as (p & R & _ & K & _);
      [reflexivity | simpl; lia | simpl; lia |].
    rewrite (K eq_refl eq_refl) in R. exact R.
  - destruct (@result_screen_accuracy twentyThreeOfForty) as (p & R & _ & _ & K);
      [reflexivity | simpl; lia | simpl; lia |].
    rewrite (K eq_refl eq_refl) in R. exact R.
Defined.

(** One answer out of 8 is 12.5 per cent without any rounding, and the
    figure is 13; 23 answers out of 40 are 57.5 per cent, the product of the
    two numbers is a little less, and the figure is 57. *)
Example result_screen_rounding :
  figure 1 8 = 13 /\ figure 23 40 = 57 /\ figure 2 3 = 67 /\ figure 0 1 = 0.
Proof. vm_compute. repeat split. Qed.

(** ** The answer options *)

Lemma options_setupQuestion (word : Word) (d : Draws) (r p : State) :
  options (setupQuestion word d r p) =
  questionOptions (mode r) (allWords r) word d.
Proof. reflexivity. Qed.

Lemma wrongAnswers_In (m : Mode) (pool : list Word) (word : Word) (t : string) :
  In t (wrongAnswers m pool word) <->
  exists w, In w pool /\ answerTerm m w = t /\ t <> answerTerm m word.
Proof.
  unfold wrongAnswers. rewrite in_map_iff. split.
  - intros (w & <- & H). apply filter_In in H. destruct H as [H N].
    exists w. repeat split; auto.
    apply negb_true_iff, String.eqb_neq in N. exact N.
  - intros (w & H & <- & N). exists w. split; [reflexivity|].
    apply filter_In. split; [exact H|].
    now apply negb_true_iff, String.eqb_neq.
Qed.

(** The distractors are taken from the candidates without replacement. *)
Lemma shuffledWrong_drawn (m : Mode) (pool : list Word) (word : Word) (d : Draws) :
  exists rest,
    Permutation (shuffledWrong m pool word d ++ rest) (wrongAnswers m pool word).
Proof.
  unfold shuffledWrong, JS.Array_slice0.
  exists (skipn 3 (JS.Array_sort_random (shuffleWrong d) (wrongAnswers m pool word))).
  rewrite firstn_skipn. apply Array_sort_random_perm.
Qed.

Lemma shuffledWrong_length (m : Mode) (pool : list Word) (word : Word) (d : Draws) :
  List.length (shuffledWrong m pool word d) =
  Nat.min 3 (List.length (wrongAnswers m pool word)).
Proof.
  unfold shuffledWrong, JS.Array_slice0. rewrite length_firstn.
  now rewrite (Permutation_length (Array_sort_random_perm _ _)).
Qed.

Lemma shuffledWrong_In (m : Mode) (pool : list Word) (word : Word) (d : Draws)
    (t : string) :
  In t (shuffledWrong m pool word d) -> In t (wrongAnswers m pool word).
Proof.
  intros H. destruct (shuffledWrong_drawn m pool word d) as [rest P].
  eapply Permutation_in; [exact P|]. apply in_or_app. now left.
Qed.


Lemma questionOptions_perm (m : Mode) (pool : list Word) (word : Word) (d : Draws) :
  Permutation (questionOptions m pool word d)
              (shuffledWrong m pool word d ++ [answerTerm m word]).
Proof. apply Array_sort_random_perm. Qed.

Lemma questionOptions_count (m : Mode) (pool : list Word) (word : Word) (d : Draws) :
  count_occ string_dec (questionOptions m pool word d) (answerTerm m word) = 1%nat.
Proof.
  pose proof (questionOptions_perm m pool word d) as P.
  rewrite (Permutation_count_occ string_dec) in P. rewrite P.
  rewrite count_occ_app. simpl.
  destruct (string_dec (answerTerm m word) (answerTerm m word)); [|congruence].
  rewrite (proj1 (count_occ_not_In string_dec _ _)); [reflexivity|].
  intros H. apply shuffledWrong_In, wrongAnswers_In in H.
  destruct H as (w & _ & _ & N). now apply N.
Qed.

Lemma answerTerm_mode (m : Mode) (w : Word) :
  answerTerm m w = match m with enToJa => japanese w | jaToEn => english w end.
Proof. now destruct m. Qed.

(** The candidates of [setupQuestion] are as many as the entries of the pool
    whose term differs from the answer. *)
Lemma wrongAnswers_length (m : Mode) (pool : list Word) (word : Word) :
  List.length (wrongAnswers m pool word) =
  eligibleDistractors m pool (answerTerm m word).
Proof.
  unfold wrongAnswers. rewrite length_map.
  induction pool as [|w pool IH]; [reflexivity|].
  cbn [filter eligibleDistractors]. rewrite <- (answerTerm_mode m w).
  destruct (string_dec (answerTerm m w) (answerTerm m word)) as [E|N].
  - rewrite E, String.eqb_refl. simpl. exact IH.
  - apply String.eqb_neq in N. rewrite N. simpl. now rewrite IH.
Qed.

(** C10. Whatever the pool, the options that [setupQuestion] builds contain
    the correct answer, and their number is one more than the smaller of 3
    and the number of entries of the pool whose term, in the direction of
    the mode, differs from the correct answer: the list is shortened when
    the pool offers fewer than three candidates.  It is never padded: an
    option is the correct answer or the term of an entry of the pool that
    differs from it. *)
Theorem options_contain_answer_and_shorten (word : Word) (d : Draws)
    (r p : State) :
  let term := fun w =>
    match mode r with enToJa => japanese w | jaToEn => english w end in
  let opts := options (setupQuestion word d r p) in
  In (term word) opts /\
  List.length opts =
    (Nat.min 3 (eligibleDistractors (mode r) (allWords r) (term word)) + 1)%nat /\
  Forall (fun t => t = term word \/
                   exists w, In w (allWords r) /\ term w = t /\ t <> term word)
         opts.
Proof.
  intros term opts. subst opts. rewrite options_setupQuestion.
  assert (T : forall w, term w = answerTerm (mode r) w)
    by (intros w; symmetry; apply answerTerm_mode).
  rewrite T. split; [|split].
  - eapply Permutation_in;
      [apply Permutation_sym, questionOptions_perm|].
    apply in_or_app. right. now left.
  - rewrite (Permutation_length (questionOptions_perm _ _ _ _)).
    rewrite length_app, shuffledWrong_length, wrongAnswers_length. reflexivity.
  - apply Forall_forall. intros t Ht.
    apply (Permutation_in _ (questionOptions_perm _ _ _ _)) in Ht.
    apply in_app_or in Ht. destruct Ht as [Ht|[<-|[]]]; [right|now left].
    apply shuffledWrong_In, wrongAnswers_In in Ht.
    destruct Ht as (w & Hw & E & N). exists w. now rewrite T.
Qed.

(** A pool of two words gives two options, a pool of one word gives the
    answer alone. *)
Lemma options_contain_answer_and_shorten_witness :
  (In "neko"%string (options (setupQuestion cat noShuffle pairState pairState)) /\
   List.length (options (setupQuestion cat noShuffle pairState pairState)) = 2%nat /\
   Forall (fun t => t = "neko"%string \/
                    exists w, In w [cat; dog] /\ japanese w = t /\
                              t <> "neko"%string)
          (options (setupQuestion cat noShuffle pairState pairState))) /\
  List.length (options (setupQuestion cat noShuffle loneState loneState)) = 1%nat.
Proof.
  split.
  - exact (@options_contain_answer_and_shorten cat noShuffle pairState pairState).
  - exact (proj1 (proj2 (@options_contain_answer_and_shorten
                           cat noShuffle loneState loneState))).
Defined.




(** ** Sampling without replacement *)

Lemma setupQuestion_records (word : Word) (d : Draws) (r p : State) :
  usedWordIds (setupQuestion word d r p) = usedWordIds p ++ [id word] /\
  currentWord (setupQuestion word d r p) = Some word.
Proof. now split. Qed.

Lemma step_continues (s : State) (e : Event) :
  isStart e = false -> Continues s (step s e).
Proof.
  destruct e; simpl; try discriminate; intros _;
    unfold step, handler, dispatch; try stays.
  - unfold handleAnswer.
    destruct (currentWord s) eqn:Ec; [|stays].
    destruct (feedback s); [stays|]. destruct (isFinished s); [stays|].
    apply Stays; destruct (String.eqb _ _); unfold_updates; auto.
  - unfold proceedNext.
    destruct (feedback s); [|stays]. destruct (isFinished s); [stays|].
    destruct (currentWord s) eqn:Ec; [|stays].
    destruct (sessionLimit s <=? solvedCount s + 1); [stays|].
    destruct (pickNextWord _ _ _ _) as [nw|] eqn:E; [|stays].
    apply pickNextWord_fresh in E. destruct E as [_ E].
    now apply Asks with (w := nw).
Qed.

Lemma click_step (s : State) (e : Event) :
  isStart e = false -> click s e = step s e.
Proof. destruct e; try reflexivity; discriminate. Qed.

Lemma click_progress (s : State) (e : Event) : Progress s (click s e).
Proof.
  destruct (isStart e) eqn:Es.
  - destruct e; try discriminate. unfold click.
    destruct (startEnabled s type) eqn:En; [|apply Goes; stays].
    assert (Hc : currentWord s = None).
    { unfold startEnabled, render in En.
      destruct (isFinished s); [discriminate|].
      destruct (currentWord s); [discriminate|reflexivity]. }
    unfold step, handler, dispatch, startSession.
    destruct (pickNextWord _ _ _ _) as [fw|] eqn:E.
    + now apply StartsWith with (w := fw).
    + now apply StartsEmpty.
  - rewrite click_step by exact Es. now apply Goes, step_continues.
Qed.

Lemma Progress_Recorded (s s' : State) :
  Progress s s' -> Recorded s -> Recorded s'.
Proof.
  intros P [N C]. unfold Recorded.
  destruct P as [[U K | w F U K] | _ U K | w U K]; rewrite U.
  - split; [exact N|]. intros v Hv. apply C.
    destruct K as [K|K]; congruence.
  - split.
    + apply NoDup_app; [exact N | repeat constructor; intros [] |].
      intros x Hx [<-|[]]. contradiction.
    + intros v Hv. rewrite K in Hv. injection Hv as <-.
      apply in_or_app. right. now left.
  - split; [constructor|]. congruence.
  - split; [repeat constructor; intros []|].
    intros v Hv. rewrite K in Hv. injection Hv as <-. now left.
Qed.

Lemma session_Recorded (events : list Event) (s : State) :
  Recorded s -> Recorded (session events s).
Proof.
  revert s. induction events as [|e events IH]; intros s R; simpl; [exact R|].
  apply IH. eapply Progress_Recorded; [apply click_progress|exact R].
Qed.

(** No event but a start ever removes an identifier from the record, so the
    record lists, in order, the words asked since the session started. *)
Lemma session_extends (events : list Event) (s : State) :
  forallb (fun e => negb (isStart e)) events = true ->
  exists asked, usedWordIds (session events s) = usedWordIds s ++ asked.
Proof.
  revert s. induction events as [|e events IH]; intros s H; simpl in *.
  - exists []. now rewrite app_nil_r.
  - apply andb_true_iff in H. destruct H as [He H].
    apply negb_true_iff in He.
    destruct (IH (click s e) H) as [asked Ha].
    rewrite click_step in * by exact He.
    destruct (step_continues s e He) as [U _ | w _ U _].
    + exists asked. now rewrite Ha, U.
    + exists (id w :: asked). rewrite Ha, U, <- app_assoc. reflexivity.
Qed.

Lemma run_NoDup (events : list Event) (s : State) :
  NoDup (usedWordIds s) -> NoDup (usedWordIds (run events s)).
Proof.
  revert s. induction events as [|e events IH]; intros s N; simpl; [exact N|].
  apply IH. destruct (isStart e) eqn:Es.
  - destruct e; try discriminate. unfold step, handler, dispatch, startSession.
    destruct (pickNextWord _ _ _ _); unfold_updates; repeat constructor.
    intros [].
  - destruct (step_continues s e Es) as [U _ | w F U _]; rewrite U; [exact N|].
    apply NoDup_app; [exact N | repeat constructor; intros [] |].
    intros x Hx [<-|[]]. contradiction.
Qed.

Lemma initialState_Recorded pool m rg limit :
  Recorded (initialState pool m rg limit).
Proof. split; [constructor|discriminate]. Qed.

(** C3. In every state that the component reaches from its initial state,
    for either type of session: [usedWordIds] has no duplicate; the word on
    the screen is recorded in it; [pickNextWord], called as [proceedNext]
    calls it, never returns a word whose identifier is recorded; every event
    leaves the record as it is, or asks a word that is not recorded and
    appends its identifier, or starts a session anew; and until the next
    start nothing is removed from the record.  Hence the words asked in one
    session are pairwise different. *)
Theorem no_repeats_in_session (pool : list Word) (m : Mode) (rg : Range)
    (limit : Z) (events : list Event) :
  let s := session events (initialState pool m rg limit) in
  NoDup (usedWordIds s) /\
  (forall w, currentWord s = Some w -> In (id w) (usedWordIds s)) /\
  (forall type rnd w,
      pickNextWord (filteredWords s) (usedWordIds s) type rnd = Some w ->
      ~ In (id w) (usedWordIds s)) /\
  (forall e, Progress s (click s e)) /\
  (forall more,
      forallb (fun e => negb (isStart e)) more = true ->
      exists asked,
        usedWordIds (session more s) = usedWordIds s ++ asked /\
        NoDup (usedWordIds s ++ asked)).
Proof.
  intros s.
  assert (R : Recorded s) by apply session_Recorded, initialState_Recorded.
  destruct R as [N C]. split; [exact N|]. split; [exact C|]. split.
  - intros type rnd w H. now apply pickNextWord_fresh in H.
  - split; [intros e; apply click_progress|].
    intros more H. destruct (session_extends more s H) as [asked Ha].
    exists asked. split; [exact Ha|]. rewrite <- Ha.
    apply session_Recorded. now split.
Qed.

Lemma no_repeats_in_session_witness :
  usedWordIds shortSession = ["3"; "4"; "2"]%string /\
  NoDup (usedWordIds shortSession) /\
  render shortSession = Result (Some 67) 3 2.
Proof.
  destruct (@no_repeats_in_session sampleWords enToJa (mkRange 1 100) 3
              threeQuestions) as [N _].
  split; [reflexivity|]. split; [exact N|reflexivity].
Defined.

(** * Further properties of the component *)

(** ** Every event has one of the listed outcomes *)

Lemma state_eta (s : State) :
  mkState (allWords s) (currentWord s) (options s) (feedback s) (sessionType s)
    (mode s) (range s) (sessionLimit s) (solvedCount s) (correctSession s)
    (isFinished s) (usedWordIds s) (vocab_data s) = s.
Proof. now destruct s. Qed.

Lemma step_outcome (s : State) (e : Event) : Outcome s e (step s e).
Proof.
  destruct e; unfold step, handler, dispatch.
  - unfold startSession.
    destruct (pickNextWord (filteredWords s) [] type rnd) as [w|] eqn:E.
    + exact (Started s type rnd d E).
    + exact (StartedEmpty s type rnd d E).
  - unfold handleAnswer.
    destruct (currentWord s) as [cw|] eqn:Ec;
      [|unfold skip; apply IgnoredAnswer; unfold answerable; now rewrite Ec].
    destruct (feedback s) eqn:Ef;
      [unfold skip; apply IgnoredAnswer; unfold answerable; now rewrite Ec, Ef|].
    destruct (isFinished s) eqn:Efin;
      [unfold skip; apply IgnoredAnswer; unfold answerable; now rewrite Ec, Ef, Efin|].
    pose proof (@Answered s answer cw Ec Ef Efin) as H. simpl in H.
    destruct (String.eqb answer (answerTerm (mode s) cw));
      unfold_updates; rewrite Ec, Efin; exact H.
  - unfold proceedNext.
    destruct (feedback s) as [fb|] eqn:Ef;
      [|unfold skip; apply IgnoredNext; unfold advanceable; now rewrite Ef].
    destruct (isFinished s) eqn:Efin;
      [unfold skip; apply IgnoredNext; unfold advanceable; now rewrite Ef, Efin|].
    destruct (currentWord s) as [cw|] eqn:Ec;
      [|unfold skip; apply IgnoredNext; unfold advanceable; now rewrite Ef, Efin, Ec].
    destruct (Z.leb_spec (sessionLimit s) (solvedCount s + 1)) as [L|L].
    + exact (Finished s rnd d Ef Efin Ec (or_introl L)).
    + destruct (pickNextWord _ _ _ _) as [w|] eqn:E.
      * unfold setupQuestion. unfold_updates. rewrite Efin.
        exact (Advanced s rnd d Ef Efin Ec L E).
      * exact (Finished s rnd d Ef Efin Ec (or_intror E)).
  - exact (WentToLobby s).
  - exact (@Configured s (ChangeMode value) value (range s) (sessionLimit s)
             eq_refl eq_refl (fun _ => eq_refl)).
  - refine (@Configured s (ChangeLimit value) (mode s) (range s) _
              eq_refl eq_refl _). discriminate.
  - exact (@Configured s (ChangeStart value) (mode s) _ (sessionLimit s)
             eq_refl eq_refl (fun _ => eq_refl)).
  - exact (@Configured s (ChangeEnd value) (mode s) _ (sessionLimit s)
             eq_refl eq_refl (fun _ => eq_refl)).
Qed.

(** ** Invariants of the session counters *)

Lemma filteredWords_incl (s : State) (w : Word) :
  In w (filteredWords s) -> In w (allWords s).
Proof. unfold filteredWords. intros H. now apply filter_In in H. Qed.

Lemma picked_in_pool (s : State) excludeIds type rnd (w : Word) :
  pickNextWord (filteredWords s) excludeIds type rnd = Some w ->
  In (id w) (map id (allWords s)).
Proof.
  intros H. apply pickNextWord_fresh in H. destruct H as [H _].
  apply in_map, filteredWords_incl, H.
Qed.

Lemma Outcome_Consistent (s s' : State) (e : Event) :
  Outcome s e s' -> Consistent s -> Consistent s'.
Proof.
  intros O [Hf Hs [Hc0 Hc] Hu Hp].
  destruct O as [answer _ | rnd d _
                | type rnd d E | type rnd d w E | answer cw Ec Ef Efin ok
                | rnd d fb cw Ef Efin Ec _ | rnd d fb cw w Ef Efin Ec L E
                | | e m rg limit _ _ _].
  - now constructor.
  - now constructor.
  - constructor; simpl; auto; try discriminate; try lia.
    + destruct (feedback s) as [[|]|]; lia.
    + intros x [].
  - constructor; simpl; try discriminate; try lia.
    + intros x [<-|[]]. eapply picked_in_pool; eauto.
    + intros v [= <-]. eapply picked_in_pool; eauto.
  - rewrite Ef in Hc. subst ok.
    constructor; simpl; try discriminate; auto;
      rewrite ?updatedWords_ids; auto.
    + destruct (String.eqb answer (answerTerm (mode s) cw)); lia.
    + intros v [= <-]. now apply Hp.
  - constructor; simpl; auto; try discriminate; try lia.
    rewrite Ef in Hc. destruct fb; lia.
  - constructor; simpl; auto; try discriminate; try lia.
    + rewrite Ef in Hc. destruct fb; lia.
    + apply incl_app; [exact Hu|]. intros x [<-|[]]. eapply picked_in_pool; eauto.
    + intros v [= <-]. eapply picked_in_pool; eauto.
  - constructor; simpl; auto; try discriminate.
  - constructor; simpl; auto.
Qed.

Lemma initialState_Consistent pool m rg limit :
  Consistent (initialState pool m rg limit).
Proof.
  constructor; simpl; try discriminate; try lia. intros x [].
Qed.

Lemma run_Consistent (events : list Event) (s : State) :
  Consistent s -> Consistent (run events s).
Proof.
  revert s. induction events as [|e events IH]; intros s C; simpl; [exact C|].
  apply IH. eapply Outcome_Consistent; [apply step_outcome|exact C].
Qed.

Lemma click_cases (s : State) (e : Event) :
  click s e = s \/
  click s e = step s e /\ (isStart e = true -> currentWord s = None).
Proof.
  destruct e; try (right; split; [reflexivity|discriminate]).
  unfold click. destruct (startEnabled s type) eqn:En; [|now left].
  right. split; [reflexivity|]. intros _.
  unfold startEnabled, render in En.
  destruct (isFinished s); [discriminate|].
  destruct (currentWord s); [discriminate|reflexivity].
Qed.

Lemma session_Consistent (events : list Event) (s : State) :
  Consistent s -> Consistent (session events s).
Proof.
  revert s. induction events as [|e events IH]; intros s C; simpl; [exact C|].
  apply IH. destruct (click_cases s e) as [->|[-> _]]; [exact C|].
  eapply Outcome_Consistent; [apply step_outcome|exact C].
Qed.

Lemma click_Counted (s : State) (e : Event) :
  Counted s -> Counted (click s e).
Proof.
  intros C. destruct (click_cases s e) as [->|[-> Hs]]; [exact C|].
  unfold Counted in *.
  destruct (step_outcome s e)
    as [answer _ | rnd d _
       | type rnd d E | type rnd d w E | answer cw Ec Ef Efin ok
       | rnd d fb cw Ef Efin Ec _ | rnd d fb cw w Ef Efin Ec L E
       | | e m rg limit _ _ _]; simpl; auto.
  - now rewrite (Hs eq_refl).
  - now rewrite Ec in C.
  - rewrite Ec in C. lia.
  - rewrite Ec in C. rewrite length_app. simpl. lia.
Qed.

Lemma session_Counted (events : list Event) (s : State) :
  Counted s -> Counted (session events s).
Proof.
  revert s. induction events as [|e events IH]; intros s C; simpl; [exact C|].
  now apply IH, click_Counted.
Qed.

(** X1. The number in the header of a question, [solvedCount + 1], is the
    number of words asked so far in the session; once the session is over,
    [solvedCount] is that number. *)
Theorem question_number_counts_asked (pool : list Word) (m : Mode)
    (rg : Range) (limit : Z) (events : list Event) :
  let s := session events (initialState pool m rg limit) in
  Z.of_nat (List.length (usedWordIds s)) =
  solvedCount s + match currentWord s with Some _ => 1 | None => 0 end.
Proof. intros s. apply session_Counted. reflexivity. Qed.

Lemma click_Bounded (limit : Z) (s : State) (e : Event) :
  isChangeLimit e = false -> Bounded limit s -> Bounded limit (click s e).
Proof.
  intros Hl B. destruct (click_cases s e) as [->|[-> Hs]]; [exact B|].
  destruct B as [Bl B]. unfold Bounded.
  destruct (step_outcome s e)
    as [answer _ | rnd d _
       | type rnd d E | type rnd d w E | answer cw Ec Ef Efin ok
       | rnd d fb cw Ef Efin Ec _ | rnd d fb cw w Ef Efin Ec L E
       | | e m rg lim _ _ Hlim]; simpl.
  - now split.
  - now split.
  - split; [exact Bl|]. rewrite (Hs eq_refl). lia.
  - split; [exact Bl|lia].
  - split; [exact Bl|]. now rewrite Ec in B.
  - split; [exact Bl|]. rewrite Ec in B. lia.
  - split; [exact Bl|lia].
  - now split.
  - split; [rewrite (Hlim Hl); exact Bl|exact B].
Qed.

Lemma session_length (events : list Event) (s : State) :
  List.length (allWords (session events s)) = List.length (allWords s).
Proof.
  revert s. induction events as [|e events IH]; intros s; simpl; [reflexivity|].
  rewrite IH. destruct (click_cases s e) as [->|[-> _]]; [reflexivity|].
  destruct (allWords_step s e) as [->|(cw & ok & _ & ->)];
    [reflexivity|apply updatedWords_length].
Qed.

(** X2. As long as the limit is not changed, a session asks at most
    [sessionLimit] words (one word when the limit is below one), and never
    more words than the pool holds. *)
Theorem session_asks_at_most_limit (pool : list Word) (m : Mode) (rg : Range)
    (limit : Z) (events : list Event) :
  forallb (fun e => negb (isChangeLimit e)) events = true ->
  let s := session events (initialState pool m rg limit) in
  Z.of_nat (List.length (usedWordIds s)) <= Z.max limit 1 /\
  (List.length (usedWordIds s) <= List.length pool)%nat.
Proof.
  intros H s. split.
  - assert (B : Bounded limit s).
    { subst s. assert (B0 : Bounded limit (initialState pool m rg limit))
        by (split; simpl; lia).
      revert B0 H. generalize (initialState pool m rg limit).
      induction events as [|e events IH]; intros s0 B0 H; simpl in *; [exact B0|].
      apply andb_true_iff in H. destruct H as [He H].
      apply IH; [|exact H]. apply click_Bounded; [|exact B0].
      now apply negb_true_iff. }
    destruct B as [_ B].
    pose proof (@session_Counted events (initialState pool m rg limit) eq_refl) as C.
    fold s in C. unfold Counted in C. lia.
  - assert (N : NoDup (usedWordIds s))
      by apply session_Recorded, initialState_Recorded.
    assert (I : incl (usedWordIds s) (map id (allWords s)))
      by apply used_in_pool, session_Consistent, initialState_Consistent.
    apply (NoDup_incl_length N) in I.
    rewrite length_map in I. subst s. now rewrite session_length in I.
Qed.

Lemma session_asks_at_most_limit_witness :
  Z.of_nat (List.length (usedWordIds limitTwo)) <= Z.max 2 1 /\
  (List.length (usedWordIds limitTwo) <= List.length sampleWords)%nat.
Proof.
  apply (@session_asks_at_most_limit sampleWords enToJa (mkRange 1 100) 2
           threeQuestions).
  reflexivity.
Defined.

(** ** The result screen in the states the component reaches *)

(** X3. On every result screen the component reaches, the figure is a whole
    number from 0 to 100, and [correctSession] does not exceed
    [solvedCount]. *)
Theorem result_is_a_percentage (pool : list Word) (m : Mode) (rg : Range)
    (limit : Z) (events : list Event) :
  let s := run events (initialState pool m rg limit) in
  isFinished s = true ->
  0 <= correctSession s <= solvedCount s /\
  exists p, render s = Result (Some p) (solvedCount s) (correctSession s) /\
            0 <= p <= 100.
Proof.
  intros s Hfin.
  assert (C : Consistent s) by apply run_Consistent, initialState_Consistent.
  destruct C as [Hf Hs [Hc0 Hc] _ _].
  destruct (Hf Hfin) as [_ Ef]. rewrite Ef in Hc.
  split; [lia|]. unfold render. rewrite Hfin.
  rewrite accuracyPercent_guarded by exact Hs.
  eexists. split; [reflexivity|]. apply percent_range; lia.
Qed.

Lemma result_is_a_percentage_witness :
  let s := run threeQuestions (initialState sampleWords enToJa (mkRange 1 100) 3) in
  0 <= correctSession s <= solvedCount s /\
  exists p, render s = Result (Some p) (solvedCount s) (correctSession s) /\
            0 <= p <= 100.
Proof.
  apply (@result_is_a_percentage sampleWords enToJa (mkRange 1 100) 3
           threeQuestions).
  reflexivity.
Defined.

(** X4. Whenever the component shows the result screen there is no current
    word and no feedback left, and the button of that screen leads to the
    lobby with the session type set back to normal. *)
Theorem back_to_lobby_from_result (pool : list Word) (m : Mode) (rg : Range)
    (limit : Z) (events : list Event) :
  let s := run events (initialState pool m rg limit) in
  isFinished s = true ->
  currentWord s = None /\ feedback s = None /\
  render (step s BackToLobby) = Lobby /\
  sessionType (step s BackToLobby) = normal /\
  allWords (step s BackToLobby) = allWords s.
Proof.
  intros s Hfin.
  assert (C : Consistent s) by apply run_Consistent, initialState_Consistent.
  destruct (finished_clear C Hfin) as [Ec Ef].
  repeat split; auto. unfold render, step, handler, dispatch, backToLobby.
  unfold_updates. now rewrite Ec.
Qed.

Lemma back_to_lobby_from_result_witness :
  let s := run threeQuestions (initialState sampleWords enToJa (mkRange 1 100) 3) in
  currentWord s = None /\ feedback s = None /\
  render (step s BackToLobby) = Lobby /\
  sessionType (step s BackToLobby) = normal /\
  allWords (step s BackToLobby) = allWords s.
Proof.
  apply (@back_to_lobby_from_result sampleWords enToJa (mkRange 1 100) 3
           threeQuestions).
  reflexivity.
Defined.

(** ** Picking in a normal session *)

Lemma Math_floor_times_exact (i n : nat) (H : Nat.ltb i n = true) :
  JS.Math_floor_times (JS.mkRandom i n H) n = i.
Proof.
  unfold JS.Math_floor_times. simpl. apply Nat.ltb_lt in H.
  apply Nat.div_mul. lia.
Qed.

(** X5. In a normal session [pickNextWord] never reads outside the list of
    available words: it yields a word unless the list is empty, each word it
    yields is available, and every available word is yielded for some value
    of [Math.random()]. *)
Theorem pickNextWord_normal_support (filtered : list Word)
    (excludeIds : list string) :
  (forall rnd, pickNextWord filtered excludeIds normal rnd = None <->
               availableWords filtered excludeIds = []) /\
  (forall w, (exists rnd, pickNextWord filtered excludeIds normal rnd = Some w)
             <-> In w (availableWords filtered excludeIds)).
Proof.
  split; [intros rnd; apply pickNextWord_None|].
  intros w. split.
  - intros [rnd H]. eapply pickNextWord_available; eauto.
  - intros H. destruct (In_nth_error _ _ H) as [i Hi].
    assert (L : (i < List.length (availableWords filtered excludeIds))%nat)
      by (apply nth_error_Some; congruence).
    apply Nat.ltb_lt in L.
    exists (JS.mkRandom i (List.length (availableWords filtered excludeIds)) L).
    unfold pickNextWord.
    destruct (availableWords filtered excludeIds) as [|a l] eqn:E; [destruct H|].
    unfold JS.Array_get. now rewrite Math_floor_times_exact.
Qed.

(** ** Starting a session *)




(** ** The order of the questions of a training session *)

Lemma pickNextWord_training_max filtered excludeIds rnd (w v : Word) :
  pickNextWord filtered excludeIds training rnd = Some w ->
  In v (availableWords filtered excludeIds) ->
  wrongCount v <= wrongCount w.
Proof.
  unfold pickNextWord.
  destruct (availableWords filtered excludeIds) as [|a l] eqn:E; [discriminate|].
  unfold JS.Array_get. rewrite nth_error_0, hd_sort_firstMax. intros H Hv.
  destruct (firstMax_split _ H) as (l1 & l2 & El & F1 & F2).
  rewrite El in Hv. apply in_app_or in Hv. rewrite Forall_forall in F1, F2.
  destruct Hv as [Hv|[<-|Hv]]; [apply F1 in Hv; lia | lia | now apply F2].
Qed.

Lemma updatedWords_In_other (pool : list Word) (current : Word) (ok : bool)
    (v : Word) :
  In v (updatedWords pool current ok) -> id v <> id current -> In v pool.
Proof.
  unfold updatedWords. intros H N. apply in_map_iff in H.
  destruct H as (u & E & Hu).
  destruct (String.eqb_spec (id u) (id current)) as [Ei|_]; [|now subst].
  subst v. now elim N.
Qed.

Lemma filteredWords_In (s : State) (w : Word) :
  In w (filteredWords s) <->
  In w (allWords s) /\
  exists idNum, JS.parseInt (id w) = Some idNum /\
                start (range s) <= idNum <= end_ (range s).
Proof.
  unfold filteredWords. rewrite filter_In. split; intros [H K]; split; auto.
  - destruct (JS.parseInt (id w)) as [n|]; [|discriminate].
    exists n. split; [reflexivity|].
    apply andb_true_iff in K. destruct K as [K1 K2].
    apply Z.leb_le in K1, K2. lia.
  - destruct K as (n & -> & K). apply andb_true_iff. split; apply Z.leb_le; lia.
Qed.

Lemma later_pick_not_greater (s s' : State) (excludeIds : list string)
    (w1 w2 : Word) (ok : bool) (rnd rnd' : JS.Random) :
  pickNextWord (filteredWords s) excludeIds training rnd = Some w1 ->
  allWords s' = updatedWords (allWords s) w1 ok -> range s' = range s ->
  pickNextWord (filteredWords s') (excludeIds ++ [id w1]) training rnd' = Some w2 ->
  wrongCount w2 <= wrongCount w1 /\ id w2 <> id w1.
Proof.
  intros P1 Ea Er P2. apply pickNextWord_fresh in P2. destruct P2 as [F N].
  assert (Nid : id w2 <> id w1).
  { intros E. apply N, in_or_app. right. left. now symmetry. }
  split; [|exact Nid].
  eapply pickNextWord_training_max; [exact P1|]. apply availableWords_In. split.
  - apply filteredWords_In in F. destruct F as [F K]. apply filteredWords_In.
    rewrite Er in K. split; [|exact K]. rewrite Ea in F.
    eapply updatedWords_In_other; eauto.
  - intros H. apply N, in_or_app. now left.
Qed.

Lemma question_after_next (t : State) (rnd : JS.Random) (d : Draws)
    (w : Word) (o : list string) :
  feedback t <> None ->
  render (step t (Next rnd d)) = Question w o None ->
  pickNextWord (filteredWords t) (usedWordIds t) (sessionType t) rnd = Some w /\
  step t (Next rnd d) =
    mkState (allWords t) (Some w) (questionOptions (mode t) (allWords t) w d)
      None (sessionType t) (mode t) (range t) (sessionLimit t)
      (solvedCount t + 1) (correctSession t) false (usedWordIds t ++ [id w])
      (vocab_data t).
Proof.
  intros Hf R. pose proof (step_outcome t (Next rnd d)) as O.
  revert R O. generalize (step t (Next rnd d)). intros t' R O.
  inversion O as [ | ? ? G | | | | ? ? ? ? ? ? ? _
                  | ? ? fb cw w' Ef Efin Ec L E | | ? ? ? ? K];
    subst; try discriminate.
  - unfold render in R. destruct (isFinished _); [discriminate|].
    destruct (currentWord _); [|discriminate]. congruence.
  - unfold render in R. simpl in R. injection R as ->.
    split; [assumption|reflexivity].
Qed.

Lemma question_after_start (t : State) (type : SessionType) (rnd : JS.Random)
    (d : Draws) (w : Word) (o : list string) :
  currentWord t = None ->
  render (step t (Start type rnd d)) = Question w o None ->
  pickNextWord (filteredWords t) [] type rnd = Some w /\
  step t (Start type rnd d) =
    mkState (allWords t) (Some w) (questionOptions (mode t) (allWords t) w d)
      None type (mode t) (range t) (sessionLimit t) 0 0 false [id w]
      (vocab_data t).
Proof.
  intros Hc R. pose proof (step_outcome t (Start type rnd d)) as O.
  revert R O. generalize (step t (Start type rnd d)). intros t' R O.
  inversion O as [ | | ? ? ? E | ? ? ? w' E | | | | | ? ? ? ? K];
    subst; try discriminate.
  - unfold render in R. simpl in R. now rewrite Hc in R.
  - unfold render in R. simpl in R. injection R as ->.
    split; [assumption|reflexivity].
Qed.

Lemma step_answer (t : State) (answer : string) (w : Word) :
  currentWord t = Some w -> feedback t = None -> isFinished t = false ->
  exists ok fb,
    step t (Answer answer) =
      mkState (updatedWords (allWords t) w ok) (Some w) (options t) (Some fb)
        (sessionType t) (mode t) (range t) (sessionLimit t) (solvedCount t)
        (if ok then correctSession t + 1 else correctSession t) false
        (usedWordIds t) (Some (updatedWords (allWords t) w ok)).
Proof.
  intros Hc Hf Hfin. unfold step, handler, dispatch, handleAnswer.
  rewrite Hc, Hf, Hfin.
  exists (String.eqb answer (answerTerm (mode t) w)).
  destruct (String.eqb answer (answerTerm (mode t) w)); eexists;
    unfold_updates; rewrite Hc, Hfin; reflexivity.
Qed.

(** X7. In a training session the questions come in descending order of
    [wrongCount]: the word asked after a question has been answered and left
    has a [wrongCount] no greater than the word asked before had when it was
    picked, and it is another word. *)
Theorem training_asks_in_descending_order (s : State) (e : Event)
    (rnd : JS.Random) (d : Draws) (answer : string) (rnd' : JS.Random)
    (d' : Draws) (w1 w2 : Word) (o1 o2 : list string) :
  e = Start training rnd d /\ currentWord s = None \/
  e = Next rnd d /\ sessionType s = training /\ feedback s <> None ->
  let s1 := step s e in
  let s2 := step (step s1 (Answer answer)) (Next rnd' d') in
  render s1 = Question w1 o1 None -> render s2 = Question w2 o2 None ->
  wrongCount w2 <= wrongCount w1 /\ id w2 <> id w1.
Proof.
  intros He s1 s2 R1 R2. subst s1 s2.
  assert (F : exists excludeIds t1,
             pickNextWord (filteredWords s) excludeIds training rnd = Some w1 /\
             step s e = t1 /\
             allWords t1 = allWords s /\ range t1 = range s /\
             usedWordIds t1 = excludeIds ++ [id w1] /\
             sessionType t1 = training /\ currentWord t1 = Some w1 /\
             feedback t1 = None /\ isFinished t1 = false).
  { destruct He as [[-> Hc]|(-> & Ht & Hf)].
    - destruct (@question_after_start _ _ _ _ _ _ Hc R1) as [P E].
      exists [], (step s (Start training rnd d)).
      split; [exact P|]. split; [reflexivity|]. rewrite E. now repeat split.
    - destruct (@question_after_next _ _ _ _ _ Hf R1) as [P E].
      exists (usedWordIds s), (step s (Next rnd d)). rewrite Ht in P.
      split; [exact P|]. split; [reflexivity|]. rewrite E. now repeat split. }
  destruct F as (ex & t1 & P1 & E1 & Ea & Er & Eu & Et & Ec & Ef & Efin).
  rewrite E1 in R2. clear E1 R1 He.
  destruct (@step_answer t1 answer w1 Ec Ef Efin) as (ok & fb & E2).
  revert R2. generalize (step t1 (Answer answer)) E2. intros t2 -> R2.
  apply question_after_next in R2; [|discriminate].
  destruct R2 as [P2 _]. simpl in P2. rewrite Eu, Et in P2.
  eapply later_pick_not_greater with (s' :=
    mkState (updatedWords (allWords t1) w1 ok) (Some w1) (options t1)
      (Some fb) (sessionType t1) (mode t1) (range t1) (sessionLimit t1)
      (solvedCount t1) (if ok then correctSession t1 + 1 else correctSession t1)
      false (usedWordIds t1) (Some (updatedWords (allWords t1) w1 ok)));
    [exact P1 | simpl; now rewrite Ea | exact Er | exact P2].
Qed.

Lemma training_asks_in_descending_order_witness :
  wrongCount hound <= wrongCount dog /\ id hound <> id dog.
Proof.
  apply (@training_asks_in_descending_order sampleState
           (Start training half noShuffle) half noShuffle "inu" half noShuffle
           dog hound ["neko"; "tori"; "sakana"; "inu"]%string
           ["neko"; "tori"; "sakana"; "inu"]%string);
    [left; split; reflexivity | vm_compute; reflexivity
     | vm_compute; reflexivity].
Defined.

(** ** Leaving the training list *)

Lemma answeredCorrectly_nth (n : nat) (current : Word) (pool : list Word)
    (i : nat) (w : Word) :
  nth_error pool i = Some w -> id w = id current -> 0 <= wrongCount w ->
  exists w',
    nth_error (answeredCorrectly n current pool) i = Some w' /\
    id w' = id w /\
    wrongCount w' = Z.max 0 (wrongCount w - Z.of_nat n) /\
    (n <> O -> correctTotal w' = 1).
Proof.
  intros Hi Hid Hw. induction n as [|n IH].
  - exists w. simpl. repeat split; auto; try lia; congruence.
  - destruct IH as (w' & Hn & Hid' & Hwc & _).
    unfold answeredCorrectly in *. simpl.
    rewrite updatedWords_nth, Hn. simpl.
    rewrite Hid', Hid, String.eqb_refl.
    eexists. split; [reflexivity|]. cbn [id wrongCount correctTotal scored].
    repeat split; auto; [congruence|lia].
Qed.

(** X8. A correct answer takes back one mistake: after [n] correct answers
    for a word whose [wrongCount] is [k >= 0] the count is [max(0, k - n)],
    so the word stops counting as a word to train exactly when [n >= k]. *)
Theorem correct_answers_clear_mistakes (n : nat) (current : Word)
    (pool : list Word) (i : nat) (w : Word) :
  nth_error pool i = Some w -> id w = id current -> 0 <= wrongCount w ->
  exists w',
    nth_error (answeredCorrectly n current pool) i = Some w' /\
    wrongCount w' = Z.max 0 (wrongCount w - Z.of_nat n) /\
    ((0 <? wrongCount w') = false <-> wrongCount w <= Z.of_nat n).
Proof.
  intros Hi Hid Hw.
  destruct (answeredCorrectly_nth n current pool i Hi Hid Hw)
    as (w' & Hn & _ & Hwc & _).
  exists w'. split; [exact Hn|]. split; [exact Hwc|].
  rewrite Z.ltb_ge. lia.
Qed.

Lemma correct_answers_clear_mistakes_witness :
  exists w',
    nth_error (answeredCorrectly 2 dog sampleWords) 1 = Some w' /\
    wrongCount w' = Z.max 0 (2 - Z.of_nat 2) /\
    ((0 <? wrongCount w') = false <-> 2 <= Z.of_nat 2).
Proof.
  apply (@correct_answers_clear_mistakes 2 dog sampleWords 1 dog);
    [reflexivity | reflexivity | simpl; lia].
Defined.

(** ** The two figures of the lobby *)

Lemma fold_count (f : Word -> bool) (l : list Word) (acc : Z) :
  fold_left (fun sum w => sum + (if f w then 1 else 0)) l acc =
  acc + Z.of_nat (List.length (filter f l)).
Proof.
  revert acc. induction l as [|w l IH]; intros acc; simpl; [lia|].
  rewrite IH. destruct (f w); simpl List.length; lia.
Qed.

Lemma toTrainCount_filter (s : State) :
  toTrainCount s =
  Z.of_nat (List.length (filter (fun w => 0 <? wrongCount w) (allWords s))).
Proof. unfold toTrainCount. now rewrite fold_count. Qed.

Lemma hasWrongWords_exists (s : State) :
  hasWrongWords s = true <-> exists w, In w (allWords s) /\ 0 < wrongCount w.
Proof.
  unfold hasWrongWords. rewrite toTrainCount_filter, Z.ltb_lt. split.
  - intros H.
    destruct (filter (fun w => 0 <? wrongCount w) (allWords s)) as [|w l] eqn:E;
      [simpl in H; lia|].
    assert (I : In w (filter (fun w => 0 <? wrongCount w) (allWords s)))
      by (rewrite E; now left).
    apply filter_In in I. destruct I as [I K]. apply Z.ltb_lt in K. eauto.
  - intros (w & I & K).
    assert (F : In w (filter (fun w => 0 <? wrongCount w) (allWords s)))
      by (apply filter_In; split; [exact I|now apply Z.ltb_lt]).
    destruct (filter _ _); [destruct F|simpl; lia].
Qed.

(** X9. [toTrainCount] is the number of pool words with a positive
    [wrongCount], so it lies between 0 and the size of the pool, and the
    training button is live exactly when some word has a positive
    [wrongCount]. *)
Theorem toTrainCount_counts_positive (s : State) :
  toTrainCount s =
    Z.of_nat (List.length (filter (fun w => 0 <? wrongCount w) (allWords s))) /\
  0 <= toTrainCount s <= Z.of_nat (List.length (allWords s)) /\
  (hasWrongWords s = true <-> exists w, In w (allWords s) /\ 0 < wrongCount w).
Proof.
  split; [apply toTrainCount_filter|]. split; [|apply hasWrongWords_exists].
  rewrite toTrainCount_filter.
  pose proof (filter_length_le (fun w => 0 <? wrongCount w) (allWords s)). lia.
Qed.

(** X10. In every state the component reaches from a pool without negative
    counts, a wrong answer to the question on the screen leaves a word with a
    positive [wrongCount]: the training button is live afterwards. *)
Theorem wrong_answer_enables_training (pool : list Word) (m : Mode)
    (rg : Range) (limit : Z) (events : list Event) (answer : string)
    (current : Word) (choices : list string) :
  Forall nonneg pool ->
  let s := run events (initialState pool m rg limit) in
  render s = Question current choices None ->
  answer <> answerTerm (mode s) current ->
  hasWrongWords (step s (Answer answer)) = true /\
  feedback (step s (Answer answer)) = Some wrong.
Proof.
  intros F s R Na.
  assert (C : Consistent s) by apply run_Consistent, initialState_Consistent.
  assert (N : Forall nonneg (allWords s)) by now apply run_nonneg.
  unfold render in R. destruct (isFinished s) eqn:Efin; [discriminate|].
  destruct (currentWord s) as [cw|] eqn:Ec; [|discriminate].
  injection R as -> _ Ef.
  pose proof (current_in_pool C Ec) as I. apply in_map_iff in I.
  destruct I as (w & Ew & Iw).
  apply String.eqb_neq in Na.
  unfold step, handler, dispatch, handleAnswer. rewrite Ec, Ef, Efin, Na.
  split; [|reflexivity].
  apply hasWrongWords_exists. exists (scored false w). split.
  - unfold_updates. unfold updatedWords. apply in_map_iff. exists w.
    split; [|exact Iw]. now rewrite Ew, String.eqb_refl.
  - rewrite Forall_forall in N. specialize (N w Iw). unfold nonneg in N.
    simpl. lia.
Qed.

Lemma wrong_answer_enables_training_witness :
  let s := run [Start normal half noShuffle]
               (initialState (formatted sampleRows None) enToJa (mkRange 1 100) 10) in
  hasWrongWords s = false /\
  hasWrongWords (step s (Answer "neko")) = true /\
  feedback (step s (Answer "neko")) = Some wrong.
Proof.
  split; [reflexivity|].
  apply (@wrong_answer_enables_training (formatted sampleRows None) enToJa
           (mkRange 1 100) 10 [Start normal half noShuffle] "neko"
           (mkWord "2" "dog" "inu" 0 0) ["neko"; "tori"; "inu"]%string).
  - unfold nonneg. repeat constructor; simpl; lia.
  - reflexivity.
  - vm_compute. discriminate.
Defined.

(** ** Loading the word list *)

Lemma orZero_id (n : Z) : orZero n = n.
Proof. unfold orZero. destruct (Z.eqb_spec n 0); congruence. Qed.

Lemma truthy_nonempty (x : string) : truthy x = true <-> x <> EmptyString.
Proof. unfold truthy. rewrite negb_true_iff. apply String.eqb_neq. Qed.

Lemma formatted_entries (parsed : list Row) (savedData : option (list Word)) :
  map entry (formatted parsed savedData) = map rowEntry (filter complete parsed).
Proof.
  unfold formatted. rewrite map_map. apply map_ext_in. reflexivity.
Qed.

Lemma formattedRaw_entries (parsed : list Row)
    (pairs : list (option JSON * JSON)) :
  map rawEntry (formattedRaw parsed pairs) = map rowEntry (filter complete parsed).
Proof.
  unfold formattedRaw. rewrite map_map. apply map_ext_in. reflexivity.
Qed.

Lemma formattedRaw_terms (parsed : list Row) (pairs : list (option JSON * JSON)) :
  Forall (fun w => rawEnglish w <> EmptyString /\ rawJapanese w <> EmptyString)
         (formattedRaw parsed pairs).
Proof.
  unfold formattedRaw. apply Forall_map, Forall_forall. intros r Hr. simpl.
  apply filter_In in Hr. destruct Hr as [_ Hr].
  apply andb_true_iff in Hr. now rewrite !truthy_nonempty in Hr.
Qed.

Lemma existsb_isNull (items : list JSON) :
  existsb isNull items = true <-> In JNull items.
Proof.
  rewrite existsb_exists. split.
  - intros (v & I & N). now destruct v.
  - intros I. now exists JNull.
Qed.

(** The load throws exactly when the stored value is no array or holds a
    [null]. *)
Lemma savedPairs_None (v : JSON) :
  savedPairs v = None <->
  (forall items, v <> JArray items) \/
  exists items, v = JArray items /\ In JNull items.
Proof.
  split.
  - intros H. destruct v as [| | | |items|]; try (left; discriminate).
    right. exists items. split; [reflexivity|]. apply existsb_isNull.
    simpl in H. destruct (existsb isNull items); [reflexivity|discriminate].
  - intros [H|(items & -> & I)].
    + destruct v as [| | | |items|]; try reflexivity. now elim (H items).
    + apply existsb_isNull in I. simpl. now rewrite I.
Qed.

Lemma Map_get_In (savedList : list Word) (key : string) (w : Word) :
  Map_get savedList key = Some w -> In w savedList /\ id w = key.
Proof.
  unfold Map_get. intros H. apply find_some in H. destruct H as [I E].
  split; [now apply in_rev|now apply String.eqb_eq].
Qed.

Lemma Map_get_found (savedList : list Word) (w : Word) :
  In w savedList ->
  exists w', Map_get savedList (id w) = Some w' /\ In w' savedList /\ id w' = id w.
Proof.
  intros I. unfold Map_get.
  destruct (find (fun v => String.eqb (id v) (id w)) (rev savedList)) as [w'|] eqn:E.
  - exists w'. split; [reflexivity|]. now apply (@Map_get_In savedList (id w) w').
  - apply find_none with (x := w) in E; [|now apply in_rev in I].
    now rewrite String.eqb_refl in E.
Qed.

Lemma find_map (A B : Type) (g : A -> B) (P : B -> bool) (l : list A) :
  find P (map g l) =
  match find (fun a => P (g a)) l with Some a => Some (g a) | None => None end.
Proof.
  induction l as [|a l IH]; [reflexivity|]. simpl.
  destruct (P (g a)); [reflexivity|exact IH].
Qed.

Lemma encode_no_null (saved : list Word) :
  existsb isNull (map encodeWord saved) = false.
Proof. induction saved as [|w saved IH]; [reflexivity|exact IH]. Qed.

(** In the map built from stored word records a key finds the record that
    [Map_get] finds. *)
Lemma savedMap_get_encode (saved : list Word) (key : string) :
  savedMap_get (map (fun w => (JSON_get "id" w, w)) (map encodeWord saved)) key =
  match Map_get saved key with Some sv => Some (encodeWord sv) | None => None end.
Proof.
  unfold savedMap_get, Map_get. rewrite map_map, <- map_rev, find_map.
  cbn [fst snd encodeWord JSON_get].
  now destruct (find _ (rev saved)).
Qed.

Lemma JSON_number_finite (n : Z) :
  Z.abs n < JS.infinity -> JSON_number n = JNumber (inject_Z n).
Proof.
  intros H. unfold JSON_number.
  now destruct (Z.ltb_spec (Z.abs n) JS.infinity); [|lia].
Qed.

Lemma JSON_truthy_number (n : Z) :
  (if JSON_truthy (JNumber (inject_Z n)) then JNumber (inject_Z n) else JNumber 0)
  = JNumber (inject_Z n).
Proof.
  unfold JSON_truthy. destruct (Qeq_bool (inject_Z n) 0) eqn:E; [|reflexivity].
  apply Qeq_bool_iff in E. change 0%Q with (inject_Z 0) in E.
  apply (proj1 (inject_Z_injective n 0)) in E. now subst n.
Qed.

(** On stored data that the component wrote, the load builds the pool
    [formatted]. *)
Lemma formattedRaw_encode (parsed : list Row) (saved : list Word) :
  Forall finiteCounters saved ->
  formattedRaw parsed (map (fun w => (JSON_get "id" w, w)) (map encodeWord saved))
  = map rawOf (formatted parsed (Some saved)).
Proof.
  intros F. unfold formattedRaw, formatted. rewrite (map_map _ rawOf).
  apply map_ext. intros r. rewrite savedMap_get_encode. cbn [savedListOf].
  destruct (Map_get saved (ID r)) as [sv|] eqn:E; [|reflexivity].
  apply Map_get_In in E. destruct E as [I _].
  rewrite Forall_forall in F. destruct (F sv I) as [Fw Fc].
  unfold rawOf, savedWrongCount, savedCorrectTotal.
  cbn [id english japanese wrongCount correctTotal].
  change (JSON_truthy (encodeWord sv)) with true. cbv iota.
  change (JSON_get "wrongCount" (encodeWord sv))
    with (Some (JSON_number (wrongCount sv))).
  change (JSON_get "correctTotal" (encodeWord sv))
    with (Some (JSON_number (correctTotal sv))).
  rewrite !JSON_number_finite by assumption.
  now rewrite JSON_truthy_number, orZero_id.
Qed.

Lemma formattedRaw_nil (parsed : list Row) :
  formattedRaw parsed [] = map rawOf (formatted parsed None).
Proof.
  unfold formattedRaw, formatted. rewrite map_map. now apply map_ext.
Qed.

(** X11. The load of the word list throws before it sets the pool, which
    then stays empty, exactly when the stored text does not parse, or parses
    to something that is no array, or to an array with a [null] in it.  In
    every other case the pool that is set consists of the rows that have
    both terms, in their order, with their identifiers and terms, whatever
    the stored records hold; rows that lack a term are left out, so no word
    of the pool has an empty term.  With nothing stored, and with stored
    records as the component writes them, the pool is [formatted]. *)
Theorem loading_keeps_complete_rows (parsed : list Row) (stored : StoredData) :
  (loadWords parsed stored = None <->
   stored = BadText \/
   exists v, stored = Data v /\
             ((forall items, v <> JArray items) \/
              exists items, v = JArray items /\ In JNull items)) /\
  (forall pool,
      loadWords parsed stored = Some pool ->
      map rawEntry pool = map rowEntry (filter complete parsed) /\
      (List.length pool <= List.length parsed)%nat /\
      Forall (fun w => rawEnglish w <> EmptyString /\
                       rawJapanese w <> EmptyString) pool) /\
  (stored = NoData ->
   loadWords parsed stored = Some (map rawOf (formatted parsed None))) /\
  (forall saved,
      Forall finiteCounters saved -> stored = Data (encode saved) ->
      loadWords parsed stored = Some (map rawOf (formatted parsed (Some saved)))).
Proof.
  split; [|split; [|split]].
  - destruct stored as [| |v]; simpl.
    + split; [discriminate|]. intros [H|(v & H & _)]; discriminate.
    + split; [now left|reflexivity].
    + split.
      * intros H. right. exists v. split; [reflexivity|].
        apply savedPairs_None. now destruct (savedPairs v).
      * intros [H|(v' & H & K)]; [discriminate|]. injection H as <-.
        apply savedPairs_None in K. now rewrite K.
  - assert (G : forall pairs,
               map rawEntry (formattedRaw parsed pairs)
               = map rowEntry (filter complete parsed) /\
               (List.length (formattedRaw parsed pairs) <= List.length parsed)%nat /\
               Forall (fun w => rawEnglish w <> EmptyString /\
                                rawJapanese w <> EmptyString)
                      (formattedRaw parsed pairs)).
    { intros pairs. split; [apply formattedRaw_entries|].
      split; [|apply formattedRaw_terms].
      unfold formattedRaw. rewrite length_map. apply filter_length_le. }
    intros pool H. destruct stored as [| |v]; simpl in H.
    + injection H as <-. apply G.
    + discriminate.
    + destruct (savedPairs v) as [pairs|]; [|discriminate].
      injection H as <-. apply G.
  - intros ->. simpl. now rewrite formattedRaw_nil.
  - intros saved F ->. simpl. rewrite encode_no_null.
    now rewrite formattedRaw_encode.
Qed.

(** A text that is no JSON, a stored object and stored data with a [null]
    among its records stop the load; a record whose counter is a text is
    loaded as it is. *)
Example loadWords_sample :
  loadWords sampleRows BadText = None /\
  loadWords sampleRows (Data (JObject [])) = None /\
  loadWords sampleRows (Data nullEntry) = None /\
  loadWords sampleRows (Data textCounter) =
    Some [ mkRawWord "1" "cat" "neko" (Some (JNumber 0)) (JNumber 0);
           mkRawWord "2" "dog" "inu" (Some (JString "many")) (JNumber 0);
           mkRawWord "4" "bird" "tori" (Some (JNumber 0)) (JNumber 0) ] /\
  loadWords sampleRows (Data (encode sampleSaved)) =
    Some (map rawOf (formatted sampleRows (Some sampleSaved))).
Proof. repeat split. Qed.

Lemma first_run_marks (parsed : list Row) (m : Mode) (rg : Range) (limit : Z) :
  let s := bootState parsed None m rg limit in
  Forall (fun w => wrongCount w = 0 /\ correctTotal w = 0) (allWords s) /\
  toTrainCount s = 0 /\ totalCorrectAchieved s = 0 /\
  startEnabled s training = false /\ render s = Lobby.
Proof.
  intros s.
  assert (F : Forall (fun w => wrongCount w = 0 /\ correctTotal w = 0)
                     (allWords s)).
  { simpl. unfold formatted. apply Forall_map, Forall_forall. now intros. }
  split; [exact F|].
  assert (T : toTrainCount s = 0).
  { rewrite toTrainCount_filter.
    replace (filter (fun w => 0 <? wrongCount w) (allWords s)) with (@nil Word);
      [reflexivity|].
    symmetry. revert F. generalize (allWords s). intros l F.
    induction F as [|w l [Hw _] F IH]; simpl; [reflexivity|].
    now rewrite Hw. }
  split; [exact T|]. split.
  - unfold totalCorrectAchieved.
    assert (G : forall l acc,
               Forall (fun w => wrongCount w = 0 /\ correctTotal w = 0) l ->
               fold_left (fun sum w => sum + orZero (correctTotal w)) l acc
               = acc).
    { intros l acc Fl. revert acc.
      induction Fl as [|w l [_ Hw] Fl IH]; intros acc; simpl; [reflexivity|].
      rewrite Hw, IH, orZero_id. lia. }
    now apply G.
  - split; [|reflexivity]. unfold startEnabled, hasWrongWords. simpl render.
    now rewrite T.
Qed.

(** X12. Without stored data, or when no stored entry carries the
    identifier of a row, the loaded word starts with both counters at zero;
    with nothing stored at all, nothing is to train, the mastery figure is
    zero and the training button is dead. *)
Theorem first_run_has_no_marks (parsed : list Row) (m : Mode) (rg : Range)
    (limit : Z) :
  (forall saved w,
      In w (formatted parsed (Some saved)) ->
      ~ In (id w) (map id saved) ->
      wrongCount w = 0 /\ correctTotal w = 0) /\
  let s := bootState parsed None m rg limit in
  Forall (fun w => wrongCount w = 0 /\ correctTotal w = 0) (allWords s) /\
  toTrainCount s = 0 /\ totalCorrectAchieved s = 0 /\
  startEnabled s training = false /\ render s = Lobby.
Proof.
  split; [|apply first_run_marks].
  intros saved w Hw N. unfold formatted in Hw. apply in_map_iff in Hw.
  destruct Hw as (r & <- & _).
  cbn [wrongCount correctTotal id savedListOf] in *.
  destruct (Map_get saved (ID r)) as [sv|] eqn:E; [|now split].
  apply Map_get_In in E. destruct E as [I E]. elim N. rewrite <- E.
  now apply in_map.
Qed.

(** Of two stored entries for one identifier the later one is restored; the
    rows without a term are gone, the words without an entry start at zero. *)
Example formatted_sample :
  formatted sampleRows (Some sampleSaved) =
  [ mkWord "1" "cat" "neko" 0 0; mkWord "2" "dog" "inu" 1 1;
    mkWord "4" "bird" "tori" 0 1 ].
Proof. reflexivity. Qed.

(** ** What is stored is what is loaded *)

Lemma formatted_keyed (parsed : list Row) (savedData : option (list Word)) :
  keyed (formatted parsed savedData).
Proof.
  intros w w' Hw Hw' E. unfold formatted in Hw, Hw'.
  apply in_map_iff in Hw, Hw'.
  destruct Hw as (r & <- & _). destruct Hw' as (r' & <- & _).
  cbn [wrongCount correctTotal id] in *. now rewrite E.
Qed.

Lemma updatedWords_entries (pool : list Word) (current : Word) (ok : bool) :
  map entry (updatedWords pool current ok) = map entry pool.
Proof.
  unfold updatedWords. rewrite map_map. apply map_ext. intros w.
  now destruct (String.eqb (id w) (id current)).
Qed.

Lemma updatedWords_keyed (pool : list Word) (current : Word) (ok : bool) :
  keyed pool -> keyed (updatedWords pool current ok).
Proof.
  intros K w w' Hw Hw' E. unfold updatedWords in Hw, Hw'.
  apply in_map_iff in Hw, Hw'.
  destruct Hw as (u & <- & Hu). destruct Hw' as (u' & <- & Hu').
  assert (Eu : id u = id u').
  { destruct (String.eqb (id u) (id current));
      destruct (String.eqb (id u') (id current)); exact E. }
  destruct (K u u' Hu Hu' Eu) as [Kw Kc]. rewrite <- Eu.
  destruct (String.eqb (id u) (id current)); simpl; now rewrite ?Kw, ?Kc.
Qed.

(** A pool that has the entries of the complete rows and is keyed is what
    loading makes of it when it is the stored data. *)
Lemma formatted_fixed (parsed : list Row) (pool : list Word) :
  map entry pool = map rowEntry (filter complete parsed) -> keyed pool ->
  formatted parsed (Some pool) = pool.
Proof.
  intros E K. unfold formatted. fold complete.
  cbn [savedListOf].
  assert (G : forall rows part,
             map entry part = map rowEntry rows -> incl part pool ->
             map (fun w =>
                    let saved := Map_get pool (ID w) in
                    mkWord (ID w) (English w) (Japanese w)
                      (match saved with Some sv => wrongCount sv | None => 0 end)
                      (match saved with
                       | Some sv => orZero (correctTotal sv)
                       | None => 0
                       end)) rows = part).
  { induction rows as [|r rows IH]; intros part Ep I.
    - destruct part; [reflexivity|discriminate].
    - destruct part as [|w part]; [discriminate|]. simpl in Ep.
      injection Ep as Eid Een Eja Ep. simpl. f_equal.
      + assert (Iw : In w pool) by (apply I; now left).
        destruct (Map_get_found pool w Iw) as (w' & Eg & Iw' & Eid').
        rewrite <- Eid, Eg. simpl.
        destruct (K w' w Iw' Iw Eid') as [Kw Kc].
        rewrite Kw, Kc, orZero_id, <- Een, <- Eja. now destruct w.
      + apply IH; [exact Ep|]. intros x Hx. apply I. now right. }
  apply G; [exact E|apply incl_refl].
Qed.

Lemma pool_step (s : State) (e : Event) :
  allWords (step s e) = allWords s /\ vocab_data (step s e) = vocab_data s \/
  exists current ok,
    allWords (step s e) = updatedWords (allWords s) current ok /\
    vocab_data (step s e) = Some (updatedWords (allWords s) current ok).
Proof.
  destruct (step_outcome s e); simpl; auto.
  right. now exists current, isCorrect.
Qed.

Lemma run_stored (parsed : list Row) (events : list Event) (s : State) :
  formatted parsed (vocab_data s) = allWords s ->
  formatted parsed (vocab_data (run events s)) = allWords (run events s).
Proof.
  revert s. induction events as [|e events IH]; intros s H; simpl; [exact H|].
  apply IH. destruct (pool_step s e) as [[-> ->]|(cw & ok & -> & ->)];
    [exact H|].
  apply formatted_fixed.
  - rewrite updatedWords_entries, <- H. apply formatted_entries.
  - apply updatedWords_keyed. rewrite <- H. apply formatted_keyed.
Qed.

Lemma run_entries (events : list Event) (s : State) :
  map entry (allWords (run events s)) = map entry (allWords s).
Proof.
  revert s. induction events as [|e events IH]; intros s; simpl; [reflexivity|].
  rewrite IH. destruct (pool_step s e) as [[-> _]|(cw & ok & -> & _)];
    [reflexivity|apply updatedWords_entries].
Qed.

(** ** The stored session limit *)

Lemma digit_cases (k : Z) :
  0 <= k <= 9 ->
  k = 0 \/ k = 1 \/ k = 2 \/ k = 3 \/ k = 4 \/ k = 5 \/ k = 6 \/ k = 7 \/
  k = 8 \/ k = 9.
Proof. lia. Qed.

Ltac each_digit k H :=
  destruct (@digit_cases k H) as [->|[->|[->|[->|[->|[->|[->|[->|[->| ->]]]]]]]]].

Lemma digit_value_char (k : Z) :
  0 <= k <= 9 -> JS.digit_value (digit_char k) = Some k.
Proof. intros H. each_digit k H; reflexivity. Qed.

Lemma decimal_S (f : nat) (n : Z) (rest : string) :
  decimal (S f) n rest =
  if n <? 10 then String (digit_char (n mod 10)) rest
  else decimal f (n / 10) (String (digit_char (n mod 10)) rest).
Proof. reflexivity. Qed.

Lemma digits_decimal (f : nat) (n : Z) (rest : string) :
  0 <= n < 10 ^ Z.of_nat (S f) ->
  JS.digits 10 (decimal (S f) n rest) None = JS.digits 10 rest (Some n).
Proof.
  revert n rest. induction f as [|f IH]; intros n rest H.
  - change (10 ^ Z.of_nat 1) with 10 in H. rewrite decimal_S.
    rewrite Z.mod_small by lia.
    destruct (Z.ltb_spec n 10); [|lia]. cbn [JS.digits].
    rewrite digit_value_char by lia.
    destruct (Z.ltb_spec n 10); [reflexivity|lia].
  - rewrite (decimal_S (S f)).
    assert (M : 0 <= n mod 10 <= 9) by (pose proof (Z.mod_pos_bound n 10); lia).
    destruct (Z.ltb_spec n 10) as [L|L].
    + cbn [JS.digits]. rewrite Z.mod_small by lia.
      rewrite digit_value_char by lia.
      destruct (Z.ltb_spec n 10); [reflexivity|lia].
    + rewrite IH.
      * cbn [JS.digits]. rewrite digit_value_char by exact M.
        destruct (Z.ltb_spec (n mod 10) 10); [|lia].
        do 2 f_equal. pose proof (Z.div_mod n 10). lia.
      * split; [apply Z.div_pos; lia|].
        apply Z.div_lt_upper_bound; [lia|].
        rewrite Nat2Z.inj_succ, Z.pow_succ_r in H by lia. lia.
Qed.

(** The digits begin with a zero only when the number is zero. *)
Lemma decimal_head (f : nat) (n : Z) (rest : string) :
  0 <= n < 10 ^ Z.of_nat (S f) ->
  n < 10 /\ decimal (S f) n rest = String (digit_char n) rest \/
  exists k tail, 1 <= k <= 9 /\ decimal (S f) n rest = String (digit_char k) tail.
Proof.
  revert n rest. induction f as [|f IH]; intros n rest H.
  - change (10 ^ Z.of_nat 1) with 10 in H. left. split; [lia|].
    rewrite decimal_S, Z.mod_small by lia.
    destruct (Z.ltb_spec n 10); [reflexivity|lia].
  - rewrite (decimal_S (S f)).
    destruct (Z.ltb_spec n 10) as [L|L].
    + left. split; [exact L|]. now rewrite Z.mod_small by lia.
    + right.
      assert (B : 1 <= n / 10 < 10 ^ Z.of_nat (S f)).
      { split; [apply Z.div_le_lower_bound; lia|].
        apply Z.div_lt_upper_bound; [lia|].
        rewrite Nat2Z.inj_succ, Z.pow_succ_r in H by lia. lia. }
      destruct (IH (n / 10) (String (digit_char (n mod 10)) rest))
        as [[L' ->]|(k & tail & Hk & ->)]; [lia| |].
      * exists (n / 10), (String (digit_char (n mod 10)) rest).
        split; [lia|reflexivity].
      * now exists k, tail.
Qed.

Lemma parseInt_positive_head (k : Z) (tail : string) :
  1 <= k <= 9 ->
  JS.parseInt (String (digit_char k) tail) =
    match JS.digits 10 (String (digit_char k) tail) None with
    | Some n => Some (JS.toInteger n)
    | None => None
    end /\
  JS.parseInt (String "-"%char (String (digit_char k) tail)) =
    match JS.digits 10 (String (digit_char k) tail) None with
    | Some n => Some (JS.toInteger (- n))
    | None => None
    end.
Proof.
  intros H. assert (H' : 0 <= k <= 9) by lia.
  each_digit k H'; try lia; unfold JS.parseInt;
    cbn [JS.trim_start JS.is_white JS.is_lead digit_char]; simpl;
    (split; destruct (JS.digits 10 tail _) as [x|];
       [destruct x; reflexivity | reflexivity
       | destruct x; reflexivity | reflexivity]).
Qed.

(** A number from [2^53] on is read from integers from [2^53] on only. *)
Lemma toInteger_large (v : Z) : 2 ^ 53 <= v -> 2 ^ 53 <= JS.toInteger v.
Proof.
  intros H.
  assert (R : 2 ^ 53 <= Qfloor (JS.toNumber (inject_Z v))).
  { change (2 ^ 53) with (Qfloor (inject_Z (2 ^ 53))) at 1.
    apply Qfloor_resp_le, toNumber_large.
    rewrite <- Zle_Qle. exact H. }
  unfold JS.toInteger.
  assert (B : 2 ^ 53 < JS.infinity) by reflexivity.
  destruct (Z.leb_spec JS.infinity (Qfloor (JS.toNumber (inject_Z v)))); [lia|].
  destruct (Z.leb_spec (Qfloor (JS.toNumber (inject_Z v))) (- JS.infinity)); lia.
Qed.

Lemma reads_as_safe (x v : Z) :
  0 <= x < 2 ^ 53 -> 0 <= v -> reads_as x v = true -> v = x.
Proof.
  intros Hx Hv R. unfold reads_as in R. apply Z.eqb_eq in R.
  destruct (Z.lt_ge_cases v (2 ^ 53)) as [L|G].
  - rewrite toInteger_safe in R by lia. exact R.
  - apply toInteger_large in G. lia.
Qed.

Lemma nearest_multiple_safe (x p v : Z) :
  0 <= x < 2 ^ 53 -> 0 < p -> nearest_multiple x p = Some v -> v = x.
Proof.
  intros Hx Hp. unfold nearest_multiple.
  assert (L : 0 <= x / p * p).
  { apply Z.mul_nonneg_nonneg; [apply Z.div_pos|]; lia. }
  destruct (reads_as x (x / p * p)) eqn:Rl;
    destruct (reads_as x (x / p * p + p)) eqn:Rh; intros E;
    try discriminate; injection E as <-.
  - apply reads_as_safe in Rl, Rh; try lia.
  - now apply reads_as_safe in Rl.
  - apply reads_as_safe in Rh; lia.
Qed.

(** Below [2^53] the digits printed are the digits of the number. *)
Lemma shortest_safe (j : nat) (x : Z) : 0 <= x < 2 ^ 53 -> shortest j x = x.
Proof.
  intros Hx. induction j as [|j IH]; cbn [shortest].
  - destruct (10 ^ Z.of_nat 0 <=? x); [|reflexivity].
    destruct (nearest_multiple x _) as [v|] eqn:E; [|reflexivity].
    apply nearest_multiple_safe in E; [exact E|exact Hx|reflexivity].
  - destruct (10 ^ Z.of_nat (S j) <=? x); [|exact IH].
    destruct (nearest_multiple x _) as [v|] eqn:E; [|exact IH].
    apply nearest_multiple_safe in E; [exact E|exact Hx|].
    apply Z.pow_pos_nonneg; lia.
Qed.

Lemma positive_toString_safe (x : Z) :
  0 <= x < 2 ^ 53 -> positive_toString x = digits_of x.
Proof.
  intros Hx. unfold positive_toString. rewrite shortest_safe by exact Hx.
  assert (B : 2 ^ 53 < 10 ^ 21) by reflexivity.
  now destruct (Z.ltb_spec x (10 ^ 21)); [|lia].
Qed.

Lemma Number_toString_safe (n : Z) :
  Z.abs n < 2 ^ 53 ->
  Number_toString n =
  if n <? 0 then String "-"%char (digits_of (- n)) else digits_of n.
Proof.
  intros H. unfold Number_toString.
  assert (B : 2 ^ 53 < JS.infinity) by reflexivity.
  destruct (Z.leb_spec JS.infinity n); [lia|].
  destruct (Z.leb_spec n (- JS.infinity)); [lia|].
  destruct (Z.ltb_spec n 0); now rewrite positive_toString_safe by lia.
Qed.

(** The text stored for a limit is read back as the limit. *)
Lemma limit_round_trip (n : Z) :
  Z.abs n < 2 ^ 53 ->
  Number_toString n <> EmptyString /\
  initialLimit (Some (Number_toString n)) = Some n.
Proof.
  intros H. rewrite Number_toString_safe by exact H. unfold digits_of.
  assert (P : 2 ^ 53 < 10 ^ Z.of_nat 400) by reflexivity.
  destruct (Z.ltb_spec n 0) as [Neg|Pos].
  - split; [discriminate|].
    unfold initialLimit. cbn [String.eqb Ascii.eqb].
    assert (B : 0 <= - n < 10 ^ Z.of_nat 400) by lia.
    pose proof (@digits_decimal 399 (- n) EmptyString B) as D. cbn [JS.digits] in D.
    destruct (@decimal_head 399 (- n) EmptyString B) as [[L E]|(k & tail & Hk & E)].
    + assert (Hk : 1 <= - n <= 9) by lia.
      rewrite E in *. rewrite (proj2 (@parseInt_positive_head _ EmptyString Hk)), D.
      f_equal. rewrite toInteger_safe by lia. lia.
    + rewrite E in *. rewrite (proj2 (@parseInt_positive_head _ tail Hk)), D.
      f_equal. rewrite toInteger_safe by lia. lia.
  - assert (B : 0 <= n < 10 ^ Z.of_nat 400) by lia.
    pose proof (@digits_decimal 399 n EmptyString B) as D. cbn [JS.digits] in D.
    destruct (@decimal_head 399 n EmptyString B) as [[L E]|(k & tail & Hk & E)].
    + rewrite E in *. split; [discriminate|].
      assert (Hn : 0 <= n <= 9) by lia. clear - Hn.
      each_digit n Hn; vm_compute; reflexivity.
    + rewrite E in *. split; [discriminate|]. unfold initialLimit.
      replace (String.eqb (String (digit_char k) tail) EmptyString) with false
        by reflexivity.
      rewrite (proj1 (@parseInt_positive_head _ tail Hk)), D.
      f_equal. apply toInteger_safe. lia.
Qed.

(** X15. The session limit survives a reload: the text the component stores
    for a limit below [2^53] in absolute value is never empty and is read
    back by [parseInt] as the same number; with nothing stored the limit is
    10. *)
Theorem limit_survives_reload (n : Z) :
  Z.abs n < 2 ^ 53 ->
  initialLimit None = Some 10 /\
  Number_toString n <> EmptyString /\
  initialLimit (Some (Number_toString n)) = Some n.
Proof.
  intros H. split; [vm_compute; reflexivity|]. now apply limit_round_trip.
Qed.

Lemma limit_survives_reload_witness :
  initialLimit None = Some 10 /\
  Number_toString 25 <> EmptyString /\
  initialLimit (Some (Number_toString 25)) = Some 25.
Proof. apply (@limit_survives_reload 25). vm_compute. reflexivity. Defined.

(** From [2^53] on not every integer is a number, and a number is printed
    with the digits that tell it from its neighbours.  From [10^21] on the
    text has an exponent, of which [parseInt] reads the digits before the
    point: a limit of [10^21] comes back as 1.  The text of an infinity is
    read back as no number. *)
Example limit_texts_beyond :
  Number_toString (2 ^ 60) = "1152921504606847000"%string /\
  initialLimit (Some (Number_toString (2 ^ 60))) = Some (2 ^ 60) /\
  Number_toString (10 ^ 21) = "1e+21"%string /\
  initialLimit (Some (Number_toString (10 ^ 21))) = Some 1 /\
  Number_toString (JS.toInteger (10 ^ 23)) = "1e+23"%string /\
  Number_toString (JS.toInteger 123456789012345678901234567890)
  = "1.2345678901234568e+29"%string /\
  Number_toString JS.infinity = "Infinity"%string /\
  initialLimit (Some (Number_toString JS.infinity)) = None.
Proof. vm_compute. repeat split. Qed.

(** ** Loading the page again *)

Lemma initialMode_text (m : Mode) : initialMode (Some (Mode_text m)) = Some m.
Proof. now destruct m. Qed.

Lemma JSON_integer_number (n : Z) :
  JSON_integer (Some (JNumber (inject_Z n))) = Some n.
Proof.
  unfold JSON_integer. rewrite Qfloor_Z.
  now rewrite (proj2 (Qeq_bool_iff _ _) (Qeq_refl (inject_Z n))).
Qed.

Lemma initialRange_encode (rg : Range) :
  Z.abs (start rg) < JS.infinity -> Z.abs (end_ rg) < JS.infinity ->
  initialRange (Data (encodeRange rg)) = Some rg.
Proof.
  intros Hs He. unfold initialRange.
  change (JSON_get "start" (encodeRange rg)) with (Some (JSON_number (start rg))).
  change (JSON_get "end" (encodeRange rg)) with (Some (JSON_number (end_ rg))).
  rewrite !JSON_number_finite, !JSON_integer_number by assumption.
  now destruct rg.
Qed.

(** With a limit below [2^53] and a finite range, the configuration that a
    reload reads is the configuration in memory. *)
Lemma reloadWith_config (savedData : option (list Word)) (parsed : list Row)
    (s : State) :
  Z.abs (sessionLimit s) < 2 ^ 53 ->
  Z.abs (start (range s)) < JS.infinity ->
  Z.abs (end_ (range s)) < JS.infinity ->
  reloadWith savedData parsed s =
  Some (bootState parsed savedData (mode s) (range s) (sessionLimit s)).
Proof.
  intros Hl Hs He. unfold reloadWith, boot.
  rewrite (proj2 (limit_round_trip _ Hl)).
  now rewrite initialMode_text, initialRange_encode.
Qed.

(** X13. Nothing is lost when the page is loaded again.  In a state that the
    component reaches after the word list has arrived, with a limit below
    [2^53] in absolute value and a finite range, a reload reads the mode,
    the range and the limit back from the texts that the component stored
    for them, builds from the same rows and the stored data the pool that is
    in memory, counter for counter, and opens on the lobby. *)
Theorem reload_restores_pool (parsed : list Row)
    (savedData : option (list Word)) (m : Mode) (rg : Range) (limit : Z)
    (events : list Event) :
  let s := run events (bootState parsed savedData m rg limit) in
  Z.abs (sessionLimit s) < 2 ^ 53 ->
  Z.abs (start (range s)) < JS.infinity ->
  Z.abs (end_ (range s)) < JS.infinity ->
  exists s',
    reload parsed s = Some s' /\
    allWords s' = allWords s /\ vocab_data s' = vocab_data s /\
    render s' = Lobby /\
    mode s' = mode s /\ range s' = range s /\
    sessionLimit s' = sessionLimit s.
Proof.
  intros s Hl Hs He. eexists. split.
  - unfold reload. now apply reloadWith_config.
  - split; [|now repeat split].
    simpl. apply run_stored. reflexivity.
Qed.

Lemma reload_restores_pool_witness :
  exists s',
    reload sampleRows configuredRun = Some s' /\
    allWords s' = allWords configuredRun /\
    vocab_data s' = vocab_data configuredRun /\
    render s' = Lobby /\
    mode s' = jaToEn /\ range s' = mkRange 2 4 /\ sessionLimit s' = 25.
Proof.
  apply (@reload_restores_pool sampleRows (Some sampleSaved) enToJa
           (mkRange 1 100) 10 reloadScript); vm_compute; reflexivity.
Defined.

(** After a wrong answer to the first question of the loaded sample, a
    reload shows the mistake. *)
Example reload_sample :
  option_map (fun s => map wrongCount (allWords s)) (reload sampleRows loadedRun)
  = Some [0; 2; 0].
Proof. vm_compute. reflexivity. Qed.

(** A limit of [10^21], which the settings accept, is 1 after a reload. *)
Example reload_large_limit :
  sessionLimit largeLimit = 10 ^ 21 /\
  option_map sessionLimit (reload sampleRows largeLimit) = Some 1.
Proof. vm_compute. split; reflexivity. Qed.

(** A range of which one end is an infinity is stored with [null] in its
    place, and the reload reads no range of two numbers. *)
Example reload_infinite_range :
  initialRange (Data (encodeRange (mkRange 1 JS.infinity))) = None /\
  initialRange NoData = Some (mkRange 1 100) /\
  initialRange BadText = None /\
  initialMode None = Some enToJa.
Proof. vm_compute. repeat split. Qed.

(** X14. [handleReset] does nothing unless the user confirms.  When the user
    confirms, in a state with a limit below [2^53] in absolute value and a
    finite range, the page opens on the lobby with the same words in the
    same order, every counter at zero, nothing stored, no word to train, the
    training button dead, and the mode, the range and the limit read back
    from their stored texts as they were. *)
Theorem reset_clears_counters (parsed : list Row)
    (savedData : option (list Word)) (m : Mode) (rg : Range) (limit : Z)
    (events : list Event) :
  let s := run events (bootState parsed savedData m rg limit) in
  Z.abs (sessionLimit s) < 2 ^ 53 ->
  Z.abs (start (range s)) < JS.infinity ->
  Z.abs (end_ (range s)) < JS.infinity ->
  handleReset false parsed s = Some s /\
  exists s',
    handleReset true parsed s = Some s' /\
    map entry (allWords s') = map entry (allWords s) /\
    Forall (fun w => wrongCount w = 0 /\ correctTotal w = 0) (allWords s') /\
    vocab_data s' = None /\ toTrainCount s' = 0 /\
    startEnabled s' training = false /\ render s' = Lobby /\
    mode s' = mode s /\ range s' = range s /\
    sessionLimit s' = sessionLimit s.
Proof.
  intros s Hl Hs He. split; [reflexivity|]. eexists. split.
  - unfold handleReset. now apply reloadWith_config.
  - destruct (first_run_marks parsed (mode s) (range s) (sessionLimit s))
      as (F & T & _ & En & R).
    split.
    + subst s. simpl allWords at 1.
      rewrite run_entries. simpl. now rewrite !formatted_entries.
    + repeat split; auto.
Qed.

Lemma reset_clears_counters_witness :
  handleReset false sampleRows configuredRun = Some configuredRun /\
  exists s',
    handleReset true sampleRows configuredRun = Some s' /\
    map entry (allWords s') = map entry (allWords configuredRun) /\
    Forall (fun w => wrongCount w = 0 /\ correctTotal w = 0) (allWords s') /\
    vocab_data s' = None /\ toTrainCount s' = 0 /\
    startEnabled s' training = false /\ render s' = Lobby /\
    mode s' = jaToEn /\ range s' = mkRange 2 4 /\ sessionLimit s' = 25.
Proof.
  apply (@reset_clears_counters sampleRows (Some sampleSaved) enToJa
           (mkRange 1 100) 10 reloadScript); vm_compute; reflexivity.
Defined.

(** ** The mastery figure *)

Lemma updatedWords_flagged (pool : list Word) (current : Word) (ok : bool) :
  Forall flagged pool -> Forall flagged (updatedWords pool current ok).
Proof.
  intros F. unfold updatedWords. apply Forall_map.
  eapply Forall_impl; [|exact F]. intros w Hw. simpl.
  destruct (String.eqb (id w) (id current)); [|exact Hw].
  unfold flagged. destruct ok; simpl; auto.
Qed.

Lemma run_flagged (events : list Event) (s : State) :
  Forall flagged (allWords s) -> Forall flagged (allWords (run events s)).
Proof.
  revert s. induction events as [|e events IH]; intros s F; simpl; [exact F|].
  apply IH. destruct (allWords_step s e) as [->|(cw & ok & _ & ->)];
    [exact F|now apply updatedWords_flagged].
Qed.

Lemma run_length (events : list Event) (s : State) :
  List.length (allWords (run events s)) = List.length (allWords s).
Proof.
  revert s. induction events as [|e events IH]; intros s; simpl; [reflexivity|].
  rewrite IH. destruct (allWords_step s e) as [->|(cw & ok & _ & ->)];
    [reflexivity|apply updatedWords_length].
Qed.

Lemma fold_flagged (l : list Word) (acc : Z) :
  Forall flagged l ->
  fold_left (fun sum w => sum + orZero (correctTotal w)) l acc =
  acc + Z.of_nat (List.length (filter (fun w => correctTotal w =? 1) l)).
Proof.
  intros F. revert acc. induction F as [|w l Hw F IH]; intros acc; simpl; [lia|].
  rewrite IH, orZero_id. destruct Hw as [-> | ->]; simpl List.length; lia.
Qed.

(** X16. When every [correctTotal] of the pool is 0 or 1 at the start, it
    stays so, and the mastery figure of the lobby is the number of words
    whose last answer was correct; it never exceeds the size of the pool. *)
Theorem mastery_counts_words (s0 : State) (events : list Event) :
  Forall flagged (allWords s0) ->
  let s := run events s0 in
  Forall flagged (allWords s) /\
  totalCorrectAchieved s =
    Z.of_nat (List.length (filter (fun w => correctTotal w =? 1) (allWords s))) /\
  0 <= totalCorrectAchieved s <= Z.of_nat (List.length (allWords s0)).
Proof.
  intros F s.
  assert (Fs : Forall flagged (allWords s)) by now apply run_flagged.
  assert (E : totalCorrectAchieved s =
              Z.of_nat (List.length
                          (filter (fun w => correctTotal w =? 1) (allWords s)))).
  { unfold totalCorrectAchieved. rewrite fold_flagged by exact Fs. lia. }
  split; [exact Fs|]. split; [exact E|]. rewrite E.
  pose proof (filter_length_le (fun w => correctTotal w =? 1) (allWords s)) as L.
  subst s. rewrite run_length in L. lia.
Qed.

Lemma mastery_counts_words_witness :
  let s := run threeQuestions sampleState in
  Forall flagged (allWords s) /\
  totalCorrectAchieved s =
    Z.of_nat (List.length (filter (fun w => correctTotal w =? 1) (allWords s))) /\
  0 <= totalCorrectAchieved s <= Z.of_nat (List.length (allWords sampleState)).
Proof.
  apply (@mastery_counts_words sampleState threeQuestions).
  simpl. repeat (apply Forall_cons; [unfold flagged; simpl; lia|]).
  apply Forall_nil.
Defined.

(** ** The option buttons after an answer *)

Lemma filter_count (l : list string) (x : string) :
  List.length (filter (fun y => String.eqb y x) l) = count_occ string_dec l x.
Proof.
  induction l as [|y l IH]; simpl; [reflexivity|].
  destruct (string_dec y x) as [->|N].
  - rewrite String.eqb_refl. simpl. now rewrite IH.
  - apply String.eqb_neq in N. now rewrite N.
Qed.

(** X17. Once a question whose options were built for the current mode is
    answered, exactly one option button is marked as correct, whatever the
    answer was.  After a correct answer the other buttons are dimmed; after a
    wrong answer they are all marked wrong, the chosen one among them. *)
Theorem one_option_marked_correct (s : State) (answer : string) (w : Word)
    (pool : list Word) (d : Draws) :
  currentWord s = Some w -> feedback s = None -> isFinished s = false ->
  options s = questionOptions (mode s) pool w d ->
  let s' := step s (Answer answer) in
  options s' = options s /\
  List.length (filter (fun o => marksCorrect (variant s' w o)) (options s'))
    = 1%nat /\
  (answer = answerTerm (mode s) w ->
   forall o, In o (options s') -> o <> answer -> variant s' w o = vDim) /\
  (answer <> answerTerm (mode s) w ->
   forall o, In o (options s') -> o <> answerTerm (mode s) w ->
             variant s' w o = vWrong).
Proof.
  intros Hc Hf Hfin Ho s'.
  destruct (@step_answer s answer w Hc Hf Hfin) as (ok & fb & E).
  assert (Ea : step s (Answer answer) =
               dispatch (handleAnswer answer) s) by reflexivity.
  assert (Ef : feedback s' =
               Some (if String.eqb answer (answerTerm (mode s) w)
                     then correct else wrong)).
  { subst s'. rewrite Ea. unfold dispatch, handleAnswer. rewrite Hc, Hf, Hfin.
    now destruct (String.eqb answer (answerTerm (mode s) w)). }
  assert (Em : mode s' = mode s /\ options s' = options s)
    by (subst s'; rewrite E; now split).
  destruct Em as [Em Eo]. split; [exact Eo|]. split.
  - rewrite Eo, Ho.
    transitivity
      (List.length (filter (fun y => String.eqb y (answerTerm (mode s) w))
                           (questionOptions (mode s) pool w d)));
      [|rewrite filter_count; apply questionOptions_count].
    f_equal. apply filter_ext. intros o.
    unfold variant. rewrite Ef, Em.
    destruct (String.eqb answer (answerTerm (mode s) w));
      now destruct (String.eqb o (answerTerm (mode s) w)).
  - split; intros Ha o _ No; unfold variant; rewrite Ef, Em.
    + subst answer. rewrite String.eqb_refl.
      apply String.eqb_neq in No. now rewrite No.
    + apply String.eqb_neq in Ha, No. now rewrite Ha, No.
Qed.

Lemma one_option_marked_correct_witness :
  let s' := step answeringState (Answer "neko") in
  options s' = options answeringState /\
  List.length (filter (fun o => marksCorrect (variant s' dog o)) (options s'))
    = 1%nat /\
  ("neko"%string = answerTerm enToJa dog ->
   forall o, In o (options s') -> o <> "neko"%string -> variant s' dog o = vDim) /\
  ("neko"%string <> answerTerm enToJa dog ->
   forall o, In o (options s') -> o <> answerTerm enToJa dog ->
             variant s' dog o = vWrong).
Proof.
  apply (@one_option_marked_correct answeringState "neko" dog sampleWords
           noShuffle); reflexivity.
Defined.

(** ** The range *)

(** X18. Whatever the type of session, a word that [pickNextWord] returns
    from the filtered pool belongs to the pool, has an identifier that
    [parseInt] reads as a number within the range, bounds included, and is
    not excluded.  With a range whose start lies above its end no word is
    ever returned. *)
Theorem picked_word_lies_in_range (s : State) (excludeIds : list string)
    (type : SessionType) (rnd : JS.Random) :
  (forall w,
      pickNextWord (filteredWords s) excludeIds type rnd = Some w ->
      In w (allWords s) /\ ~ In (id w) excludeIds /\
      exists idNum, JS.parseInt (id w) = Some idNum /\
                    start (range s) <= idNum <= end_ (range s)) /\
  (end_ (range s) < start (range s) ->
   pickNextWord (filteredWords s) excludeIds type rnd = None).
Proof.
  split.
  - intros w H. apply pickNextWord_fresh in H. destruct H as [F N].
    apply filteredWords_In in F. destruct F as [I K]. repeat split; auto.
  - intros H. destruct (pickNextWord _ _ _ _) as [w|] eqn:E; [|reflexivity].
    apply pickNextWord_fresh in E. destruct E as [F _].
    apply filteredWords_In in F. destruct F as (_ & n & _ & K). lia.
Qed.

Lemma picked_word_lies_in_range_witness :
  (forall w,
      pickNextWord (filteredWords narrowState) [] normal half = Some w ->
      In w (allWords narrowState) /\ ~ In (id w) [] /\
      exists idNum, JS.parseInt (id w) = Some idNum /\ 1 <= idNum <= 1) /\
  pickNextWord
    (filteredWords (initialState sampleWords enToJa (mkRange 5 1) 10))
    [] normal half = None.
Proof.
  split.
  - apply (@picked_word_lies_in_range narrowState [] normal half).
  - apply (@picked_word_lies_in_range
             (initialState sampleWords enToJa (mkRange 5 1) 10) [] normal half).
    simpl. lia.
Defined.

(** [parseInt] reads an identifier as the engine does: an ideographic space
    before the digits is skipped, digits beyond [2^53] are rounded to a
    number, and an identifier that does not begin with a digit is no number
    and lies in no range. *)
Example filteredWords_wide :
  JS.parseInt spaced6 = Some 6 /\
  JS.parseInt "9007199254740993" = Some 9007199254740992 /\
  JS.parseInt "x7" = None /\
  map english
      (filteredWords
         (initialState widePool enToJa (mkRange 6 9007199254740992) 10))
  = ["six"; "many"]%string.
Proof. vm_compute. repeat split. Qed.

(** Digits stop at the first character that is none; a run of digits that
    is too long for a number is an infinity. *)
Example parseInt_sample :
  JS.parseInt "  42px" = Some 42 /\ JS.parseInt "-0x1A" = Some (-26) /\
  JS.parseInt "0x" = None /\ JS.parseInt "+" = None /\
  JS.parseInt "1e3" = Some 1 /\ JS.parseInt EmptyString = None /\
  JS.parseInt "007" = Some 7 /\
  JS.parseInt "18446744073709551617" = Some 18446744073709551616 /\
  JS.parseInt (String "1" (string_of_list_ascii (repeat "0"%char 400)))
  = Some JS.infinity.
Proof. vm_compute. repeat split. Qed.

(** ** Every session ends *)

Lemma playRound_Live (s : State) (r : string * JS.Random * Draws) :
  Live s ->
  Live (playRound s r) /\
  List.length (allWords (playRound s r)) = List.length (allWords s) /\
  (isFinished (playRound s r) = true \/
   List.length (usedWordIds (playRound s r)) = S (List.length (usedWordIds s))).
Proof.
  destruct r as [[answer rnd] d]. intros (N & I & L). unfold playRound.
  destruct L as [Hfin|(Hfin & Hf & w & Hc & Hw)].
  - assert (E1 : step s (Answer answer) = s).
    { unfold step, handler, dispatch, handleAnswer.
      destruct (currentWord s); [|reflexivity].
      destruct (feedback s); [reflexivity|]. now rewrite Hfin. }
    assert (E2 : step s (Next rnd d) = s).
    { unfold step, handler, dispatch, proceedNext.
      destruct (feedback s); [|reflexivity]. now rewrite Hfin. }
    rewrite E1, E2. repeat split; auto.
  - destruct (@step_answer s answer w Hc Hf Hfin) as (ok & fb & E).
    rewrite E. clear E.
    set (t := mkState (updatedWords (allWords s) w ok) (Some w) (options s)
                (Some fb) (sessionType s) (mode s) (range s) (sessionLimit s)
                (solvedCount s)
                (if ok then correctSession s + 1 else correctSession s) false
                (usedWordIds s) (Some (updatedWords (allWords s) w ok))).
    assert (It : incl (usedWordIds s) (map id (allWords t)))
      by (simpl; now rewrite updatedWords_ids).
    assert (Lt : List.length (allWords t) = List.length (allWords s))
      by apply updatedWords_length.
    pose proof (step_outcome t (Next rnd d)) as O.
    revert O. generalize (step t (Next rnd d)). intros t' O.
    inversion O as [ | ? ? G | | | | ? ? ? ? ? ? ? _
                    | ? ? fb' cw w' Ef Efin Ec Lm E | | ? ? ? ? K];
      subst; try discriminate.
    + split; [|split; [exact Lt|now left]].
      split; [exact N|]. split; [exact It|now left].
    + simpl in *. split; [|split; [exact Lt|right]].
      * apply pickNextWord_fresh in E. destruct E as [Fw Nw].
        split; [|split].
        -- apply NoDup_app; [exact N | repeat constructor; intros [] |].
           intros x Hx [<-|[]]. contradiction.
        -- apply incl_app; [exact It|]. intros x [<-|[]].
           apply in_map. apply (@filteredWords_incl t). exact Fw.
        -- right. repeat split; auto. exists w'. split; [reflexivity|].
           apply in_or_app. right. now left.
      * rewrite length_app. simpl. lia.
Qed.

Lemma play_ends (rounds : list (string * JS.Random * Draws)) (s : State) :
  Live s ->
  (List.length (allWords s) < List.length rounds + List.length (usedWordIds s))%nat ->
  isFinished (play rounds s) = true.
Proof.
  revert s. induction rounds as [|r rounds IH]; intros s L B.
  - destruct L as (N & I & _). apply (NoDup_incl_length N) in I.
    rewrite length_map in I. simpl in B. lia.
  - simpl. destruct (playRound_Live r L) as (L' & El & [Hfin|Hu]).
    + clear IH B. revert L' Hfin. generalize (playRound s r). clear.
      induction rounds as [|r' rounds IH]; intros t L Hfin; [exact Hfin|].
      simpl. destruct (playRound_Live r' L) as (L' & _ & _).
      apply IH; [exact L'|].
      destruct r' as [[a rnd] d]. unfold playRound.
      replace (step t (Answer a)) with t.
      * unfold step, handler, dispatch, proceedNext.
        destruct (feedback t); [|exact Hfin]. now rewrite Hfin.
      * unfold step, handler, dispatch, handleAnswer.
        destruct (currentWord t); [|reflexivity].
        destruct (feedback t); [reflexivity|]. now rewrite Hfin.
    + apply IH; [exact L'|]. rewrite El, Hu. simpl in B. lia.
Qed.

(** X19. Every session ends, whatever the limit: from any question the
    component reaches, as many rounds of answering and moving on as the pool
    has words bring up the result screen. *)
Theorem every_session_ends (pool : list Word) (m : Mode) (rg : Range)
    (limit : Z) (events : list Event)
    (rounds : list (string * JS.Random * Draws))
    (w : Word) (choices : list string) :
  let s := session events (initialState pool m rg limit) in
  render s = Question w choices None ->
  (List.length pool <= List.length rounds)%nat ->
  isFinished (play rounds s) = true /\
  exists p, render (play rounds s) =
            Result p (solvedCount (play rounds s)) (correctSession (play rounds s)).
Proof.
  intros s R B.
  assert (Rec : Recorded s) by apply session_Recorded, initialState_Recorded.
  assert (C : Consistent s) by apply session_Consistent, initialState_Consistent.
  destruct Rec as [N Cur].
  unfold render in R. destruct (isFinished s) eqn:Efin; [discriminate|].
  destruct (currentWord s) as [cw|] eqn:Ec; [|discriminate].
  injection R as -> _ Ef.
  assert (L : Live s).
  { split; [exact N|]. split; [apply (used_in_pool C)|].
    right. repeat split; auto. exists w. split; [exact Ec|now apply Cur]. }
  assert (U : (1 <= List.length (usedWordIds s))%nat).
  { specialize (Cur w eq_refl). destruct (usedWordIds s); [destruct Cur|simpl; lia]. }
  assert (F : isFinished (play rounds s) = true).
  { apply play_ends; [exact L|]. subst s. rewrite session_length. simpl.
    fold (session events (initialState pool m rg limit)). lia. }
  split; [exact F|]. unfold render. rewrite F. eauto.
Qed.

Lemma every_session_ends_witness :
  isFinished (play fiveRounds answeringState) = true /\
  exists p, render (play fiveRounds answeringState) =
            Result p (solvedCount (play fiveRounds answeringState))
                   (correctSession (play fiveRounds answeringState)).
Proof.
  apply (@every_session_ends sampleWords enToJa (mkRange 1 100) 10
           [Start training half noShuffle] fiveRounds dog
           ["neko"; "tori"; "sakana"; "inu"]%string);
    [vm_compute; reflexivity | simpl; lia].
Defined.
